(** * Verification of [distributed_map.hpp] (namespace [bliss::index])

    A shallow embedding of the hash-sharded distributed multimap and counting
    map: the key-to-rank routing, the raw-byte message framing, the receive
    callbacks, [asyncLookup], and the loops of [filter] and [countHistrogram];
    followed by the properties proved about them. *)

From Stdlib Require Import ZArith Lia Strings.Byte String.
From stdpp Require Import base list gmap.

Local Open Scope Z_scope.

(** * Part I: the embedding *)

(** ** Fixed-width integers *)

Module CInt.

(** [std::numeric_limits<int>::max()] for a 32-bit [int]. *)
Definition INT_MAX : Z := 2 ^ 31 - 1.

(** Conversion of a value to [int]: reduction modulo [2^32] into
    [[-2^31, 2^31)]. *)
Definition to_int (z : Z) : Z := (z + 2 ^ 31) mod 2 ^ 32 - 2 ^ 31.

(** Conversion to [std::size_t] / [uint64_t] (64 bits, unsigned). *)
Definition to_size_t (z : Z) : Z := z mod 2 ^ 64.

(** Conversion to [count_t], which is [uint32_t]. *)
Definition to_count_t (z : Z) : Z := z mod 2 ^ 32.

End CInt.

(** ** Exceptions and outcomes

    A call either returns, or throws with the object left as it was at the
    [throw], or has no defined behaviour (a remainder by zero). *)

Inductive exn : Type :=
| runtime_error (what : string)
| range_error (what : string)
| bad_function_call.

Inductive outcome (S : Type) : Type :=
| Normal (s : S)
| Thrown (e : exn) (s : S)
| Undefined.

Arguments Normal {S} s.
Arguments Thrown {S} e s.
Arguments Undefined {S}.

Definition and_then {S : Type} (o : outcome S) (f : S -> outcome S) : outcome S :=
  match o with
  | Normal s => f s
  | Thrown e s => Thrown e s
  | Undefined => Undefined
  end.

(** A [for] loop over [l] whose body may throw. *)
Fixpoint for_each {S B : Type} (body : B -> S -> outcome S) (l : list B) (s : S)
  : outcome S :=
  match l with
  | [] => Normal s
  | x :: l' => and_then (body x s) (for_each body l')
  end.

Definition completed {S : Type} (o : outcome S) : option S :=
  match o with
  | Normal s => Some s
  | _ => None
  end.

(** ** Object representations

    [Key] and [Value] cross the message boundary as raw bytes: [sendKey] and
    [sendPair] [reinterpret_cast] the address of the object to
    [const uint8_t*] and ship [sizeof] bytes; the receive callbacks cast the
    buffer back.  A trivially-copyable type is one whose value is determined
    by its [sizeof] bytes. *)

Class TriviallyCopyable (A : Type) := {
  sizeof : nat;
  to_bytes : A -> list byte;
  of_bytes : list byte -> A;
  sizeof_pos : (0 < sizeof)%nat;
  to_bytes_length : forall a, length (to_bytes a) = sizeof;
  of_to_bytes : forall a, of_bytes (to_bytes a) = a
}.

Arguments sizeof A {_}.

Section Framing.
Context {A : Type} `{!TriviallyCopyable A}.

(** [elements[i]] for [elements = reinterpret_cast<A*>(msg)]. *)
Definition element_at (msg : list byte) (i : nat) : A :=
  of_bytes (take (sizeof A) (drop (i * sizeof A) msg)).

(** [int element_count = count / sizeof(A)]: a [size_t] division narrowed to
    [int]. *)
Definition element_count (count : Z) : Z :=
  CInt.to_int (count / Z.of_nat (sizeof A)).

(** The elements visited by [for (int i = 0; i < element_count; ++i)]. *)
Definition received_elements (msg : list byte) (count : Z) : list A :=
  map (element_at msg) (seq 0 (Z.to_nat (element_count count))).

(** The buffer holding the object representations of [xs] back to back. *)
Definition serialize (xs : list A) : list byte :=
  concat (map to_bytes xs).

End Framing.

(** The layout of [std::pair<K, T>]: [first] at offset 0, [second] after
    [pad_first] bytes of alignment padding, and [pad_second] bytes of tail
    padding.  The padding bytes of the object representation are
    indeterminate in the code; they are written as zero here, carry no value
    and are skipped when the pair is read back, so nothing stated about
    decoded pairs depends on them. *)

Section PairLayout.
Context {K T : Type} `{!TriviallyCopyable K} `{!TriviallyCopyable T}.
Variables pad_first pad_second : nat.

Definition pair_sizeof : nat :=
  (sizeof K + pad_first + sizeof T + pad_second)%nat.

Definition pair_to_bytes (p : K * T) : list byte :=
  to_bytes p.1 ++ replicate pad_first x00
  ++ to_bytes p.2 ++ replicate pad_second x00.

Definition pair_of_bytes (bs : list byte) : K * T :=
  (of_bytes (take (sizeof K) bs),
   of_bytes (take (sizeof T) (drop (sizeof K + pad_first) bs))).

Lemma pair_sizeof_pos : (0 < pair_sizeof)%nat.
Proof. unfold pair_sizeof. pose proof (sizeof_pos (A := K)). lia. Qed.

Lemma pair_to_bytes_length p : length (pair_to_bytes p) = pair_sizeof.
Proof.
  unfold pair_to_bytes, pair_sizeof.
  rewrite !length_app, !length_replicate, !to_bytes_length. lia.
Qed.

Lemma pair_of_to_bytes p : pair_of_bytes (pair_to_bytes p) = p.
Proof.
  destruct p as [k v]. unfold pair_of_bytes, pair_to_bytes. cbn [fst snd].
  f_equal.
  - rewrite take_app_length' by (by rewrite to_bytes_length).
    apply of_to_bytes.
  - rewrite (app_assoc (to_bytes k)).
    rewrite drop_app_length'
      by (by rewrite length_app, length_replicate, to_bytes_length).
    rewrite take_app_length' by (by rewrite to_bytes_length).
    apply of_to_bytes.
Qed.

Definition pair_copyable : TriviallyCopyable (K * T) :=
  {| sizeof := pair_sizeof;
     to_bytes := pair_to_bytes;
     of_bytes := pair_of_bytes;
     sizeof_pos := pair_sizeof_pos;
     to_bytes_length := pair_to_bytes_length;
     of_to_bytes := pair_of_to_bytes |}.

End PairLayout.

(** ** [count_t]

    [typedef uint32_t count_t]: the integers of [[0, 2^32)], four bytes
    in memory, least significant first. *)

Module Count.

Definition in_range (z : Z) : Prop := 0 <= z < 2 ^ 32.

#[export] Instance in_range_dec (z : Z) : Decision (in_range z).
Proof. unfold in_range. apply _. Defined.

Definition count_t : Type := dsig in_range.

Definition value (c : count_t) : Z := `c.

Lemma to_count_t_in_range (z : Z) : in_range (CInt.to_count_t z).
Proof. unfold in_range, CInt.to_count_t. apply Z.mod_pos_bound. lia. Qed.

(** Conversion to [count_t]. *)
Definition of_Z (z : Z) : count_t :=
  dexist (CInt.to_count_t z) (to_count_t_in_range z).

Definition byte_of_Z (z : Z) : byte :=
  default x00 (Byte.of_N (Z.to_N (z mod 2 ^ 8))).

Definition Z_of_byte (b : byte) : Z := Z.of_N (Byte.to_N b).

Definition count_to_bytes (c : count_t) : list byte :=
  [byte_of_Z (value c); byte_of_Z (value c / 2 ^ 8);
   byte_of_Z (value c / 2 ^ 16); byte_of_Z (value c / 2 ^ 24)].

Definition count_of_bytes (bs : list byte) : count_t :=
  of_Z (Z_of_byte (nth 0 bs x00)
        + 2 ^ 8 * Z_of_byte (nth 1 bs x00)
        + 2 ^ 16 * Z_of_byte (nth 2 bs x00)
        + 2 ^ 24 * Z_of_byte (nth 3 bs x00)).

Lemma value_range (c : count_t) : 0 <= value c < 2 ^ 32.
Proof. destruct c as [z Hz]. exact (bool_decide_unpack _ Hz). Qed.

Lemma value_of_Z (z : Z) : value (of_Z z) = CInt.to_count_t z.
Proof. reflexivity. Qed.

Lemma of_Z_value (c : count_t) : of_Z (value c) = c.
Proof.
  apply dsig_eq. cbn. unfold CInt.to_count_t.
  apply Z.mod_small, value_range.
Qed.

Lemma Z_of_byte_of_Z (z : Z) : Z_of_byte (byte_of_Z z) = z mod 2 ^ 8.
Proof.
  unfold Z_of_byte, byte_of_Z.
  pose proof (Z.mod_pos_bound z (2 ^ 8) ltac:(lia)) as Hz.
  destruct (Byte.of_N (Z.to_N (z mod 2 ^ 8))) as [b|] eqn:Hb.
  - apply Byte.to_of_N in Hb. cbn [default from_option id]. rewrite Hb. lia.
  - apply Byte.of_N_None_iff in Hb. lia.
Qed.

Lemma count_sizeof_pos : (0 < 4)%nat.
Proof. lia. Qed.

Lemma count_to_bytes_length (c : count_t) : length (count_to_bytes c) = 4%nat.
Proof. reflexivity. Qed.

Lemma count_of_to_bytes (c : count_t) : count_of_bytes (count_to_bytes c) = c.
Proof.
  rewrite <- (of_Z_value c) at 2.
  unfold count_of_bytes, count_to_bytes. cbn [nth].
  rewrite !Z_of_byte_of_Z. f_equal.
  pose proof (value_range c). Z.div_mod_to_equations. lia.
Qed.

#[export] Instance count_copyable : TriviallyCopyable count_t :=
  {| sizeof := 4;
     to_bytes := count_to_bytes;
     of_bytes := count_of_bytes;
     sizeof_pos := count_sizeof_pos;
     to_bytes_length := count_to_bytes_length;
     of_to_bytes := count_of_to_bytes |}.

End Count.

Export Count.

(** ** The communication layer

    Modelled from the spec: the [CommunicationLayer] template argument is not
    part of the header.  It is the message-passing substrate of the spec
    (reliable, ordered, point to point): [sendMessage] queues [count] bytes
    for a destination rank under a tag, [addReceiveCallback] binds a tag to a
    member function, and a flush of a tag hands every destination what was
    queued for it (the [deliver] step of the system model below). *)

(** The receive callbacks named in the header, and the class that declares
    each: [_distributed_map_base] declares the two lookup callbacks, which
    both derived classes inherit. *)
Inductive member_name : Type :=
| receivedInsertCallback_name
| receivedCountCallback_name
| receivedLookupCallback_name
| receivedLookupAnswerCallback_name.

Inductive class_name : Type :=
| distributed_multimap_class
| distributed_counting_map_class.

Definition declares (c : class_name) (m : member_name) : bool :=
  match m, c with
  | receivedLookupCallback_name, _ => true
  | receivedLookupAnswerCallback_name, _ => true
  | receivedInsertCallback_name, distributed_multimap_class => true
  | receivedCountCallback_name, distributed_counting_map_class => true
  | _, _ => false
  end.

(** [&c::m]: a pointer to member exists only for a declared member. *)
Definition member_pointer (c : class_name) (m : member_name) : option member_name :=
  if declares c m then Some m else None.

Module Comm.

Record Message : Type := {
  payload : list byte;
  dstRank : Z;
  tag : Z
}.

Record Layer : Type := {
  commSize : Z;
  receiveCallbacks : list (Z * option member_name);
  sendQueue : list Message
}.

Definition create (comm_size : Z) : Layer :=
  {| commSize := comm_size; receiveCallbacks := []; sendQueue := [] |}.

Definition getCommSize (cl : Layer) : Z := commSize cl.

Definition sendMessage (msg : list byte) (count : Z) (dst tg : Z) (cl : Layer)
  : Layer :=
  {| commSize := commSize cl;
     receiveCallbacks := receiveCallbacks cl;
     sendQueue := sendQueue cl
       ++ [ {| payload := take (Z.to_nat count) msg; dstRank := dst; tag := tg |} ] |}.

Definition addReceiveCallback (tg : Z) (cb : option member_name) (cl : Layer)
  : Layer :=
  {| commSize := commSize cl;
     receiveCallbacks := receiveCallbacks cl ++ [(tg, cb)];
     sendQueue := sendQueue cl |}.

(** The callback a received message with tag [tg] is dispatched to. *)
Definition dispatch (tg : Z) (cl : Layer) : option member_name :=
  match filter (fun e => e.1 = tg) (receiveCallbacks cl) with
  | (_, cb) :: _ => cb
  | [] => None
  end.

(** The bytes queued under [tg] for destination [d], in sending order. *)
Definition sent_to (tg d : Z) (q : list Message) : list byte :=
  concat (payload <$> filter (fun m => tag m = tg /\ dstRank m = d) q).

(** What stays queued once the messages of [tg] have left. *)
Definition unsent (tg : Z) (q : list Message) : list Message :=
  filter (fun m => tag m <> tg) q.

Definition flushed (tg : Z) (cl : Layer) : Layer :=
  {| commSize := commSize cl;
     receiveCallbacks := receiveCallbacks cl;
     sendQueue := unsent tg (sendQueue cl) |}.

End Comm.

(** ** Local containers

    [LocalContainer] is a template argument of [_distributed_map_base]; the
    base class uses [equal_range], iteration from [begin()] to [end()], and
    the overloaded [getLocalCount]. *)

Class LocalContainer (K T C : Type) := {
  (** the default-constructed container *)
  lc_empty : C;
  (** [begin()] to [end()] *)
  lc_elements : C -> list (K * T);
  (** [equal_range(key)], as the list from [first] to [second] *)
  equal_range : C -> K -> list (K * T);
  (** [getLocalCount(localMap, item)]; [None] when its [assert] fails *)
  getLocalCount : C -> K * T -> option Z
}.

(** [std::unordered_multimap<K, T>]: every inserted pair is kept.  The order
    in which the container is iterated is unspecified; the list is one
    enumeration of its pairs (here, in insertion order), and what is stated
    about the contents of a multimap is stated up to permutation. *)

Section Multimap.
Context {K T : Type} `{EqDecision K}.

Definition multimap_insert (e : K * T) (m : list (K * T)) : list (K * T) :=
  m ++ [e].

Definition multimap_equal_range (m : list (K * T)) (k : K) : list (K * T) :=
  filter (fun p => p.1 = k) m.

(** [localMap.count(item.first)], a [size_t]. *)
Definition multimap_getLocalCount (m : list (K * T)) (item : K * T) : option Z :=
  Some (CInt.to_size_t (Z.of_nat (length (multimap_equal_range m item.1)))).

#[export] Instance multimap_container : LocalContainer K T (list (K * T)) :=
  {| lc_empty := [];
     lc_elements := fun m => m;
     equal_range := multimap_equal_range;
     getLocalCount := multimap_getLocalCount |}.

End Multimap.

(** [std::unordered_map<K, count_t>]: at most one value per key; a value is
    a [uint32_t]. *)

Section CountingContainer.
Context {K : Type} `{Countable K}.

Definition counting_equal_range (m : gmap K count_t) (k : K)
  : list (K * count_t) :=
  match m !! k with
  | Some v => [(k, v)]
  | None => []
  end.

(** [assert(localMap.find(item.first) != localMap.end());
    return static_cast<std::size_t>(item.second);] *)
Definition counting_getLocalCount (m : gmap K count_t) (item : K * count_t)
  : option Z :=
  match m !! item.1 with
  | Some _ => Some (CInt.to_size_t (Count.value item.2))
  | None => None
  end.

(** [local_map[key]++]: [operator[]] value-initialises a missing entry to 0,
    and the increment is taken in [uint32_t]. *)
Definition counting_increment (k : K) (m : gmap K count_t) : gmap K count_t :=
  <[k := Count.of_Z (Count.value (default (Count.of_Z 0) (m !! k)) + 1)]> m.

#[export] Instance counting_container : LocalContainer K count_t (gmap K count_t) :=
  {| lc_empty := ∅;
     lc_elements := map_to_list;
     equal_range := counting_equal_range;
     getLocalCount := counting_getLocalCount |}.

End CountingContainer.

(** ** [_distributed_map_base<K, T, CommunicationLayer, LocalContainer>] *)

(** MPI message tags. *)
Definition INSERT_MPI_TAG : Z := 13.
Definition LOOKUP_MPI_TAG : Z := 14.
Definition LOOKUP_ANSWER_MPI_TAG : Z := 15.

Section MapBase.
Context {K T C U : Type}.
Context `{!TriviallyCopyable K} `{!TriviallyCopyable (K * T)}.
Context `{!LocalContainer K T C}.

(** The data members.  [lookupAnswerCallbackFunc] is a [std::function]
    returning [void]: [None] is the empty function, and a callback acts on
    the caller's variables it has captured, kept here as [caller_state]. *)
Record map_state : Type := {
  commLayer : Comm.Layer;
  comm : Z;
  hashFunct : K -> Z;
  local_map : C;
  has_pending_inserts : bool;
  has_pending_lookups : bool;
  lookupAnswerCallbackFunc : option (K * T -> U -> U);
  caller_state : U
}.

Definition set_commLayer (cl : Comm.Layer) (st : map_state) : map_state :=
  {| commLayer := cl; comm := comm st; hashFunct := hashFunct st;
     local_map := local_map st;
     has_pending_inserts := has_pending_inserts st;
     has_pending_lookups := has_pending_lookups st;
     lookupAnswerCallbackFunc := lookupAnswerCallbackFunc st;
     caller_state := caller_state st |}.

Definition set_local_map (m : C) (st : map_state) : map_state :=
  {| commLayer := commLayer st; comm := comm st; hashFunct := hashFunct st;
     local_map := m;
     has_pending_inserts := has_pending_inserts st;
     has_pending_lookups := has_pending_lookups st;
     lookupAnswerCallbackFunc := lookupAnswerCallbackFunc st;
     caller_state := caller_state st |}.

Definition set_has_pending_inserts (b : bool) (st : map_state) : map_state :=
  {| commLayer := commLayer st; comm := comm st; hashFunct := hashFunct st;
     local_map := local_map st;
     has_pending_inserts := b;
     has_pending_lookups := has_pending_lookups st;
     lookupAnswerCallbackFunc := lookupAnswerCallbackFunc st;
     caller_state := caller_state st |}.

Definition set_has_pending_lookups (b : bool) (st : map_state) : map_state :=
  {| commLayer := commLayer st; comm := comm st; hashFunct := hashFunct st;
     local_map := local_map st;
     has_pending_inserts := has_pending_inserts st;
     has_pending_lookups := b;
     lookupAnswerCallbackFunc := lookupAnswerCallbackFunc st;
     caller_state := caller_state st |}.

Definition set_caller_state (u : U) (st : map_state) : map_state :=
  {| commLayer := commLayer st; comm := comm st; hashFunct := hashFunct st;
     local_map := local_map st;
     has_pending_inserts := has_pending_inserts st;
     has_pending_lookups := has_pending_lookups st;
     lookupAnswerCallbackFunc := lookupAnswerCallbackFunc st;
     caller_state := u |}.

(** The protected constructor: an empty container, both flags false, no
    lookup-answer callback. *)
Definition base_constructor (mpi_comm comm_size : Z) (hashFunction : K -> Z)
  (u : U) : map_state :=
  {| commLayer := Comm.create comm_size; comm := mpi_comm;
     hashFunct := hashFunction;
     local_map := lc_empty;
     has_pending_inserts := false;
     has_pending_lookups := false;
     lookupAnswerCallbackFunc := None;
     caller_state := u |}.

(** [flush()], as seen on the object itself: only the flags change.  The
    [commLayer.flush] calls are deliveries between ranks: see [flush_at]. *)
Definition flush (st : map_state) : map_state :=
  let st1 :=
    if has_pending_inserts st then set_has_pending_inserts false st else st in
  if has_pending_lookups st1 then set_has_pending_lookups false st1 else st1.

Definition setLookupAnswerCallback (callbackFunction : option (K * T -> U -> U))
  (st : map_state) : map_state :=
  {| commLayer := commLayer st; comm := comm st; hashFunct := hashFunct st;
     local_map := local_map st;
     has_pending_inserts := has_pending_inserts st;
     has_pending_lookups := has_pending_lookups st;
     lookupAnswerCallbackFunc := callbackFunction;
     caller_state := caller_state st |}.

(** [sendKey]: the key's bytes, [sizeof(key)] of them. *)
Definition sendKey (key : K) (dstRank tg : Z) (st : map_state) : map_state :=
  set_commLayer
    (Comm.sendMessage (to_bytes key) (Z.of_nat (sizeof K)) dstRank tg (commLayer st))
    st.

(** [sendPair(const std::pair<K, T>&, int, int)]. *)
Definition sendPair (keyValue : K * T) (dstRank tg : Z) (st : map_state)
  : map_state :=
  set_commLayer
    (Comm.sendMessage (to_bytes keyValue) (Z.of_nat (sizeof (K * T))) dstRank tg
       (commLayer st))
    st.

(** [sendPair(const K&, const T&, int, int)]. *)
Definition sendPair_kv (key : K) (value : T) (dstRank tg : Z) (st : map_state)
  : map_state :=
  sendPair (key, value) dstRank tg st.

(** [getTargetRank]: [int size = commLayer.getCommSize();
    return hashFunct(key) % size;].  The remainder is taken in [size_t],
    [size] being converted; it is undefined for a zero divisor; the result is
    narrowed to [int]. *)
Definition getTargetRank (st : map_state) (key : K) : option Z :=
  let size := CInt.to_int (Comm.getCommSize (commLayer st)) in
  let divisor := CInt.to_size_t size in
  if divisor =? 0 then None
  else Some (CInt.to_int (CInt.to_size_t (hashFunct st key) mod divisor)).

(** [asyncLookup]. *)
Definition asyncLookup (key : K) (st : map_state) : outcome map_state :=
  match lookupAnswerCallbackFunc st with
  | None => Thrown (runtime_error "ERROR: Callback function not set!") st
  | Some _ =>
      match getTargetRank st key with
      | None => Undefined
      | Some targetRank =>
          Normal (set_has_pending_lookups true
                    (sendKey key targetRank LOOKUP_MPI_TAG st))
      end
  end.

(** [receivedLookupCallback]: for every received key, every pair of its
    [equal_range] is sent to the requesting rank. *)
Definition receivedLookupCallback (msg : list byte) (count : Z) (fromRank : Z)
  (st : map_state) : map_state :=
  fold_left
    (fun st key =>
       fold_left (fun st it => sendPair it fromRank LOOKUP_ANSWER_MPI_TAG st)
         (equal_range (local_map st) key) st)
    (received_elements (A := K) msg count) st.

(** [receivedLookupAnswerCallback]: the caller's callback is invoked on every
    received pair; invoking an empty [std::function] throws. *)
Definition receivedLookupAnswerCallback (msg : list byte) (count : Z)
  (fromRank : Z) (st : map_state) : outcome map_state :=
  for_each
    (fun e st =>
       match lookupAnswerCallbackFunc st with
       | None => Thrown bad_function_call st
       | Some f => Normal (set_caller_state (f e (caller_state st)) st)
       end)
    (received_elements (A := K * T) msg count) st.

End MapBase.

Arguments map_state K T C U : clear implicits.

(** ** The loops of [filter] and [countHistrogram]

    Both functions walk the local container one run of equal keys at a
    time.  Their loops are kept as the header writes them, as typed
    expressions: a member function of a class template can be instantiated
    only if every statement of it is well-formed, and that is decided by
    what each expression is applied to. *)

Module Cpp.

(** The types of the expressions of these loops. *)
Inductive cpp_type : Type :=
| local_iterator   (** [LocalContainer::iterator], the type of [iter] *)
| value_type       (** [std::pair<const K, T>], what an iterator points to *)
| key_type         (** [K] *)
| mapped_type      (** [T] *)
| iterator_range   (** [std::pair<iterator, iterator>], what [equal_range] returns *)
| size_type.       (** [std::size_t] *)

#[export] Instance cpp_type_eq_dec : EqDecision cpp_type.
Proof. solve_decision. Defined.

Inductive member : Type := first | second.

Inductive expr : Type :=
| iter                               (** the loop variable *)
| deref (e : expr)                   (** [*e] *)
| arrow (e : expr) (m : member)      (** [e->m] *)
| dot (e : expr) (m : member)        (** [e.m] *)
| equal_range_call (key : expr)      (** [this->local_map.equal_range(key)] *)
| getLocalCount_call (item : expr).  (** [getLocalCount(local_map, item)] *)

(** What [*e] and [e->] reach: of the types above only the iterator has
    them; [std::pair] is no pointer and declares neither [operator*] nor
    [operator->]. *)
Definition pointee (t : cpp_type) : option cpp_type :=
  match t with
  | local_iterator => Some value_type
  | _ => None
  end.

(** The data members [first] and [second] of the two [std::pair] types. *)
Definition member_type (t : cpp_type) (m : member) : option cpp_type :=
  match t, m with
  | value_type, first => Some key_type
  | value_type, second => Some mapped_type
  | iterator_range, _ => Some local_iterator
  | _, _ => None
  end.

(** The type of an expression, [None] when it is ill-formed.  [equal_range]
    takes a key.  Both overloads of [getLocalCount] take a
    [const std::pair<K, T>&] as second argument: the pair an iterator points
    to converts to it, an iterator does not. *)
Fixpoint type_of (e : expr) : option cpp_type :=
  match e with
  | iter => Some local_iterator
  | deref e' => t ← type_of e'; pointee t
  | arrow e' m => t ← type_of e'; p ← pointee t; member_type p m
  | dot e' m => t ← type_of e'; member_type t m
  | equal_range_call key =>
      t ← type_of key;
      match t with
      | key_type => Some iterator_range
      | _ => None
      end
  | getLocalCount_call item =>
      t ← type_of item;
      match t with
      | value_type => Some size_type
      | _ => None
      end
  end.

Inductive stmt : Type :=
| assign_iter (e : expr)      (** [iter = e] *)
| declare_auto (e : expr)     (** [auto x = e] *)
| declare_size_t (e : expr).  (** [std::size_t x = e] *)

Definition well_formed (s : stmt) : bool :=
  match s with
  | assign_iter e => bool_decide (type_of e = Some local_iterator)
  | declare_auto e => bool_decide (is_Some (type_of e))
  | declare_size_t e => bool_decide (type_of e = Some size_type)
  end.

Definition instantiable (body : list stmt) : bool := forallb well_formed body.

(** [filter], lines 204 and 205: the statements of its loop that apply
    [equal_range] and [getLocalCount]. *)
Definition filter_body : list stmt :=
  [ declare_auto (arrow (equal_range_call (arrow iter first)) second);
    declare_size_t (getLocalCount_call iter) ].

(** [countHistrogram], lines 227, 229, 247 and 249: the advance and the
    count of its two loops. *)
Definition countHistrogram_body : list stmt :=
  [ assign_iter (arrow (equal_range_call (arrow iter first)) second);
    declare_size_t (getLocalCount_call (deref iter));
    assign_iter (arrow (equal_range_call (arrow iter first)) second);
    declare_size_t (getLocalCount_call (deref iter)) ].

End Cpp.

(** ** [distributed_multimap<K, T, CommunicationLayer>] *)

Module Multimap.
Section Class.
Context {K T U : Type} `{EqDecision K}.
Context `{!TriviallyCopyable K} `{!TriviallyCopyable (K * T)}.

Local Abbreviation state := (map_state K T (list (K * T)) U).

(** The constructor binds a callback to each of the three tags; the one bound
    to [INSERT_MPI_TAG] is written [&distributed_multimap::receivedCountCallback]. *)
Definition constructor (mpi_comm comm_size : Z) (hashFunction : K -> Z) (u : U)
  : state :=
  let st := base_constructor mpi_comm comm_size hashFunction u in
  let cl1 := Comm.addReceiveCallback INSERT_MPI_TAG
    (member_pointer distributed_multimap_class receivedCountCallback_name)
    (commLayer st) in
  let cl2 := Comm.addReceiveCallback LOOKUP_MPI_TAG
    (member_pointer distributed_multimap_class receivedLookupCallback_name)
    cl1 in
  let cl3 := Comm.addReceiveCallback LOOKUP_ANSWER_MPI_TAG
    (member_pointer distributed_multimap_class receivedLookupAnswerCallback_name)
    cl2 in
  set_commLayer cl3 st.

(** [insert(const std::pair<K, T>&)]. *)
Definition insert (keyvalue : K * T) (st : state) : outcome state :=
  match getTargetRank st keyvalue.1 with
  | None => Undefined
  | Some targetRank =>
      Normal (set_has_pending_inserts true
                (sendPair keyvalue targetRank INSERT_MPI_TAG st))
  end.

(** [insert(const K&, const T&)]. *)
Definition insert_kv (key : K) (value : T) (st : state) : outcome state :=
  match getTargetRank st key with
  | None => Undefined
  | Some targetRank =>
      Normal (set_has_pending_inserts true
                (sendPair_kv key value targetRank INSERT_MPI_TAG st))
  end.

(** [populate(begin, end)]: the loop of sends; the closing
    [commLayer.flush(INSERT_MPI_TAG)] is the [deliver] step of the system
    model. *)
Definition populate (batch : list (K * T)) (st : state) : outcome state :=
  for_each
    (fun it st =>
       match getTargetRank st it.1 with
       | None => Undefined
       | Some targetRank => Normal (sendPair it targetRank INSERT_MPI_TAG st)
       end)
    batch st.

(** [receivedInsertCallback]: [local_map.insert(elements[i])] for every
    received pair. *)
Definition receivedInsertCallback (msg : list byte) (count : Z) (fromRank : Z)
  (st : state) : state :=
  fold_left
    (fun st e => set_local_map (multimap_insert e (local_map st)) st)
    (received_elements (A := K * T) msg count) st.

End Class.
End Multimap.

(** ** [distributed_counting_map<K, CommunicationLayer>] *)

Module CountingMap.
Section Class.
Context {K U : Type} `{Countable K}.
Context `{!TriviallyCopyable K}.

Local Abbreviation state := (map_state K count_t (gmap K count_t) U).

Definition constructor (mpi_comm comm_size : Z) (hashFunction : K -> Z) (u : U)
  : state :=
  let st := base_constructor mpi_comm comm_size hashFunction u in
  let cl1 := Comm.addReceiveCallback INSERT_MPI_TAG
    (member_pointer distributed_counting_map_class receivedCountCallback_name)
    (commLayer st) in
  let cl2 := Comm.addReceiveCallback LOOKUP_MPI_TAG
    (member_pointer distributed_counting_map_class receivedLookupCallback_name)
    cl1 in
  let cl3 := Comm.addReceiveCallback LOOKUP_ANSWER_MPI_TAG
    (member_pointer distributed_counting_map_class receivedLookupAnswerCallback_name)
    cl2 in
  set_commLayer cl3 st.

(** [insert(const K&)]. *)
Definition insert (key : K) (st : state) : outcome state :=
  match getTargetRank st key with
  | None => Undefined
  | Some targetRank =>
      Normal (set_has_pending_inserts true
                (sendKey key targetRank INSERT_MPI_TAG st))
  end.

(** [populate(begin, end)], up to its closing flush. *)
Definition populate (batch : list K) (st : state) : outcome state :=
  for_each
    (fun it st =>
       match getTargetRank st it with
       | None => Undefined
       | Some targetRank => Normal (sendKey it targetRank INSERT_MPI_TAG st)
       end)
    batch st.

(** [receivedCountCallback]: [local_map[keys[i]]++] for every received key. *)
Definition receivedCountCallback (msg : list byte) (count : Z) (fromRank : Z)
  (st : state) : state :=
  fold_left
    (fun st key => set_local_map (counting_increment key (local_map st)) st)
    (received_elements (A := K) msg count) st.

End Class.
End CountingMap.

(** ** The ranks of one communicator

    Modelled from the spec: one map object per rank, and the delivery of
    queued messages by the communication layer.  [deliver recv tg] is a
    collective flush of tag [tg]: every rank is handed, source by source in
    rank order, the bytes queued for it under [tg], through the receive
    callback [recv]; the delivered messages leave the senders' queues. *)

Section System.
Context {K T C U : Type}.

Local Abbreviation state := (map_state K T C U).

Local Abbreviation system := (list state).

Definition callback : Type := list byte -> Z -> Z -> state -> outcome state.

(** A callback that cannot throw. *)
Definition returning (f : list byte -> Z -> Z -> state -> state) : callback :=
  fun msg count fromRank st => Normal (f msg count fromRank st).

Definition inbox (tg : Z) (d : nat) (sys : system) : list (nat * list byte) :=
  imap (fun s st => (s, Comm.sent_to tg (Z.of_nat d) (Comm.sendQueue (commLayer st))))
    sys.

Definition receive_all (recv : callback) (box : list (nat * list byte))
  (st : state) : outcome state :=
  for_each
    (fun m st => recv m.2 (Z.of_nat (length m.2)) (Z.of_nat m.1) st)
    box st.

Definition deliver (recv : callback) (tg : Z) (sys : system) : option system :=
  mapM
    (fun d =>
       st ← sys !! d;
       completed
         (receive_all recv (inbox tg d sys)
            (set_commLayer (Comm.flushed tg (commLayer st)) st)))
    (seq 0 (length sys)).

(** An operation of rank [r] on its own map object. *)
Definition at_rank (r : nat) (f : state -> outcome state) (sys : system)
  : option system :=
  st ← sys !! r;
  st' ← completed (f st);
  Some (<[r := st']> sys).

End System.

Section CollectiveFlush.
Context {K T C U : Type}.
Context `{!TriviallyCopyable K} `{!TriviallyCopyable (K * T)}.
Context `{!LocalContainer K T C}.

(** [flush()] called on rank [r], with its [commLayer.flush] calls as
    deliveries: the insert messages go to [on_insert], the insert callback of
    the class; the queries to [receivedLookupCallback]; the answers to
    [receivedLookupAnswerCallback]. *)
Definition flush_at (on_insert : @callback K T C U) (r : nat)
  (sys : list (map_state K T C U)) : option (list (map_state K T C U)) :=
  st ← sys !! r;
  sys1 ← (if has_pending_inserts st
          then sys' ← deliver on_insert INSERT_MPI_TAG sys;
               at_rank r (fun st => Normal (set_has_pending_inserts false st)) sys'
          else Some sys);
  st1 ← sys1 !! r;
  if has_pending_lookups st1
  then sys' ← deliver (returning receivedLookupCallback) LOOKUP_MPI_TAG sys1;
       sys'' ← deliver receivedLookupAnswerCallback LOOKUP_ANSWER_MPI_TAG sys';
       at_rank r (fun st => Normal (set_has_pending_lookups false st)) sys''
  else Some sys1.

End CollectiveFlush.

(** ** Protocols over the ranks *)

Section LookupProtocol.
Context {K T C : Type}.
Context `{!TriviallyCopyable K} `{!TriviallyCopyable (K * T)}.
Context `{!LocalContainer K T C}.

Local Abbreviation state := (map_state K T C (list (K * T))).

(** A lookup-answer callback that appends the answer to the caller's list. *)
Definition collect (answer : K * T) (answers : list (K * T)) : list (K * T) :=
  answers ++ [answer].

(** Rank [r] sets the collecting callback, looks up [keys] one by one and
    calls [flush()].  The result is what the callback has collected. *)
Definition looked_up (on_insert : callback) (r : nat) (keys : list K)
  (sys : list state) : option (list (K * T)) :=
  sys1 ← at_rank r
    (fun st => for_each asyncLookup keys (setLookupAnswerCallback (Some collect) st))
    sys;
  sys2 ← flush_at on_insert r sys1;
  st ← sys2 !! r;
  Some (caller_state st).

End LookupProtocol.

Section MultimapProtocol.
Context {K T : Type} `{EqDecision K}.
Context `{!TriviallyCopyable K} `{!TriviallyCopyable (K * T)}.

Local Abbreviation state := (map_state K T (list (K * T)) (list (K * T))).

(** [P] freshly constructed multimaps. *)
Definition fresh_multimaps (P : nat) (mpi_comm : Z) (hashFunction : K -> Z)
  : list state :=
  replicate P (Multimap.constructor mpi_comm (Z.of_nat P) hashFunction []).

(** Rank [r] populates the map with [batch]; the insert messages are handed
    to [receivedInsertCallback] on their destinations. *)
Definition populated (r : nat) (batch : list (K * T)) (sys : list state)
  : option (list state) :=
  sys1 ← at_rank r (Multimap.populate batch) sys;
  deliver (returning Multimap.receivedInsertCallback) INSERT_MPI_TAG sys1.

Definition find_after_populate (P : nat) (mpi_comm : Z) (hashFunction : K -> Z)
  (r : nat) (batch : list (K * T)) (keys : list K) : option (list (K * T)) :=
  sys ← populated r batch (fresh_multimaps P mpi_comm hashFunction);
  looked_up (returning Multimap.receivedInsertCallback) r keys sys.

(** The operations on one multimap object, in any order. *)
Inductive operation : Type :=
| op_flush
| op_asyncLookup (key : K)
| op_setLookupAnswerCallback (f : option (K * T -> list (K * T) -> list (K * T)))
| op_insert (keyvalue : K * T)
| op_insert_kv (key : K) (value : T)
| op_populate (batch : list (K * T))
| op_receivedInsertCallback (msg : list byte) (count fromRank : Z)
| op_receivedLookupCallback (msg : list byte) (count fromRank : Z)
| op_receivedLookupAnswerCallback (msg : list byte) (count fromRank : Z).

Definition perform (o : operation) (st : state) : outcome state :=
  match o with
  | op_flush => Normal (flush st)
  | op_asyncLookup key => asyncLookup key st
  | op_setLookupAnswerCallback f => Normal (setLookupAnswerCallback f st)
  | op_insert keyvalue => Multimap.insert keyvalue st
  | op_insert_kv key value => Multimap.insert_kv key value st
  | op_populate batch => Multimap.populate batch st
  | op_receivedInsertCallback msg count fromRank =>
      Normal (Multimap.receivedInsertCallback msg count fromRank st)
  | op_receivedLookupCallback msg count fromRank =>
      Normal (receivedLookupCallback msg count fromRank st)
  | op_receivedLookupAnswerCallback msg count fromRank =>
      receivedLookupAnswerCallback msg count fromRank st
  end.

(** The object after a history of operations; an exception leaves the object
    as it was at the [throw], and the history goes on. *)
Fixpoint history (ops : list operation) (st : state) : option state :=
  match ops with
  | [] => Some st
  | o :: ops' =>
      match perform o st with
      | Normal st' => history ops' st'
      | Thrown _ st' => history ops' st'
      | Undefined => None
      end
  end.

End MultimapProtocol.

Section CountingProtocol.
Context {K : Type} `{Countable K}.
Context `{!TriviallyCopyable K} `{!TriviallyCopyable (K * count_t)}.

Local Abbreviation state :=
  (map_state K count_t (gmap K count_t) (list (K * count_t))).

Definition fresh_counting_maps (P : nat) (mpi_comm : Z) (hashFunction : K -> Z)
  : list state :=
  replicate P (CountingMap.constructor mpi_comm (Z.of_nat P) hashFunction []).

(** Rank [r] inserts [keys] one by one and calls [flush()]; the insert
    messages are handed to [receivedCountCallback] on their destinations. *)
Definition counted (r : nat) (keys : list K) (sys : list state)
  : option (list state) :=
  sys1 ← at_rank r (for_each CountingMap.insert keys) sys;
  flush_at (returning CountingMap.receivedCountCallback) r sys1.

(** The count stored for [key], on the rank that owns it. *)
Definition stored_count (sys : list state) (key : K) : option Z :=
  st0 ← sys !! 0%nat;
  owner ← getTargetRank st0 key;
  st ← sys !! Z.to_nat owner;
  Count.value <$> local_map st !! key.

(** Rank [r] inserts [keys] into fresh counting maps, flushes, and then looks
    up [queries]: the (key, count) pairs its callback collects. *)
Definition count_after_insert (P : nat) (mpi_comm : Z) (hashFunction : K -> Z)
  (r : nat) (keys queries : list K) : option (list (K * Z)) :=
  sys ← counted r keys (fresh_counting_maps P mpi_comm hashFunction);
  (fun answers : list (K * count_t) => prod_map id Count.value <$> answers)
    <$> looked_up (returning CountingMap.receivedCountCallback) r queries sys.

End CountingProtocol.

(** ** A concrete instantiation: one-byte keys and values

    [uint8_t] keys and values, hashed by their value; used to run the
    embedding on explicit inputs. *)

Module Sample.

#[export] Instance byte_eq_dec : EqDecision byte := Byte.byte_eq_dec.

#[export] Instance byte_countable : Countable byte :=
  inj_countable Byte.to_N Byte.of_N Byte.of_to_N.

Definition byte_of_bytes (bs : list byte) : byte :=
  match bs with
  | b :: _ => b
  | [] => x00
  end.

Lemma byte_sizeof_pos : (0 < 1)%nat.
Proof. lia. Qed.

Lemma byte_to_bytes_length (b : byte) : length [b] = 1%nat.
Proof. reflexivity. Qed.

Lemma byte_of_to_bytes (b : byte) : byte_of_bytes [b] = b.
Proof. reflexivity. Qed.

#[export] Instance byte_copyable : TriviallyCopyable byte :=
  {| sizeof := 1;
     to_bytes := fun b => [b];
     of_bytes := byte_of_bytes;
     sizeof_pos := byte_sizeof_pos;
     to_bytes_length := byte_to_bytes_length;
     of_to_bytes := byte_of_to_bytes |}.

(** A pair of bytes has no padding. *)
#[export] Instance byte_pair_copyable : TriviallyCopyable (byte * byte) :=
  pair_copyable 0 0.

(** A byte and a count: three bytes of padding align the count. *)
#[export] Instance byte_count_copyable : TriviallyCopyable (byte * count_t) :=
  pair_copyable 3 0.

Definition byte_hash (b : byte) : Z := Z.of_N (Byte.to_N b).

(** The multimap object of one rank out of three. *)
Definition multimap3 : map_state byte byte (list (byte * byte)) (list (byte * byte)) :=
  Multimap.constructor 0 3 byte_hash [].

(** The same object holding the pairs (1,10), (3,11), (1,12). *)
Definition shard3 : map_state byte byte (list (byte * byte)) (list (byte * byte)) :=
  set_local_map [(x01, x0a); (x03, x0b); (x01, x0c)] multimap3.

(** A counting-map container: key 3 counted four times. *)
Definition counts_b : gmap byte count_t := <[x03 := Count.of_Z 4]> ∅.

(** The same object holding the single pair (1,10). *)
Definition shard1 : map_state byte byte (list (byte * byte)) (list (byte * byte)) :=
  set_local_map [(x01, x0a)] multimap3.

End Sample.

Import Sample.

(** * Part II: properties *)

(** ** Integer conversions *)

Lemma to_int_small z : - 2 ^ 31 <= z <= CInt.INT_MAX -> CInt.to_int z = z.
Proof.
  unfold CInt.to_int, CInt.INT_MAX. intros Hz.
  rewrite Z.mod_small by lia. lia.
Qed.

Lemma to_size_t_small z : 0 <= z < 2 ^ 64 -> CInt.to_size_t z = z.
Proof. intros Hz. unfold CInt.to_size_t. by rewrite Z.mod_small. Qed.

Lemma to_size_t_range z : 0 <= CInt.to_size_t z < 2 ^ 64.
Proof. unfold CInt.to_size_t. apply Z.mod_pos_bound. lia. Qed.

Lemma to_count_t_small z : 0 <= z < 2 ^ 32 -> CInt.to_count_t z = z.
Proof. intros Hz. unfold CInt.to_count_t. by rewrite Z.mod_small. Qed.

(** ** Framing of a buffer of objects *)

Section FramingFacts.
Context {A : Type} `{!TriviallyCopyable A}.

Lemma serialize_cons (x : A) xs : serialize (x :: xs) = to_bytes x ++ serialize xs.
Proof. reflexivity. Qed.

Lemma serialize_app (xs ys : list A) :
  serialize (xs ++ ys) = serialize xs ++ serialize ys.
Proof. unfold serialize. by rewrite map_app, concat_app. Qed.

Lemma serialize_length (xs : list A) :
  length (serialize xs) = (length xs * sizeof A)%nat.
Proof.
  induction xs as [|x xs IH]; [done|].
  rewrite serialize_cons, length_app, to_bytes_length, IH. simpl. lia.
Qed.

Lemma element_at_cons (x : A) xs rest i :
  element_at (serialize (x :: xs) ++ rest) (S i)
  = element_at (A := A) (serialize xs ++ rest) i.
Proof.
  unfold element_at. rewrite serialize_cons, <- app_assoc.
  replace (S i * sizeof A)%nat with (length (to_bytes x) + i * sizeof A)%nat
    by (rewrite to_bytes_length; lia).
  by rewrite drop_app_add.
Qed.

Lemma element_at_head (x : A) xs rest :
  element_at (serialize (x :: xs) ++ rest) 0 = x.
Proof.
  unfold element_at. rewrite serialize_cons, <- app_assoc.
  rewrite Nat.mul_0_l, drop_0.
  rewrite take_app_length' by (by rewrite to_bytes_length).
  apply of_to_bytes.
Qed.

(** Reading back the first [length xs] slots of a buffer that starts with the
    image of [xs] gives [xs], whatever follows. *)
Lemma elements_of_serialize (xs : list A) rest :
  map (element_at (serialize xs ++ rest)) (seq 0 (length xs)) = xs.
Proof.
  induction xs as [|x xs IH]; [done|].
  cbn [length seq map]. rewrite element_at_head. f_equal.
  rewrite <- seq_shift, map_map.
  rewrite <- IH at 2. apply map_ext. intros i. apply element_at_cons.
Qed.

Lemma element_count_serialize (xs : list A) :
  Z.of_nat (length xs) <= CInt.INT_MAX ->
  element_count (A := A) (Z.of_nat (length (serialize xs))) = Z.of_nat (length xs).
Proof.
  intros Hlen. unfold element_count.
  rewrite serialize_length, Nat2Z.inj_mul, Z.div_mul
    by (pose proof (sizeof_pos (A := A)); lia).
  apply to_int_small. unfold CInt.INT_MAX in *. lia.
Qed.

Lemma received_serialize (xs : list A) :
  Z.of_nat (length xs) <= CInt.INT_MAX ->
  received_elements (serialize xs) (Z.of_nat (length (serialize xs))) = xs.
Proof.
  intros Hlen. unfold received_elements.
  rewrite element_count_serialize, Nat2Z.id by done.
  rewrite <- (app_nil_r (serialize xs)). apply elements_of_serialize.
Qed.

Lemma received_nothing :
  received_elements (A := A) [] 0 = [].
Proof. reflexivity. Qed.

End FramingFacts.

(** ** Key-to-rank routing *)

Section Routing.
Context {K T C U : Type}.

Local Abbreviation state := (map_state K T C U).

(** The rank chosen when no conversion changes a value. *)
Lemma getTargetRank_value (st : state) (key : K) :
  0 < Comm.getCommSize (commLayer st) <= CInt.INT_MAX ->
  getTargetRank st key
  = Some (CInt.to_size_t (hashFunct st key) mod Comm.getCommSize (commLayer st)).
Proof.
  intros HP. unfold getTargetRank.
  set (P := Comm.getCommSize (commLayer st)) in *.
  assert (HI : CInt.to_int P = P)
    by (apply to_int_small; unfold CInt.INT_MAX in *; lia).
  assert (HS : CInt.to_size_t P = P)
    by (apply to_size_t_small; unfold CInt.INT_MAX in *; lia).
  rewrite HI, HS.
  destruct (Z.eqb_spec P 0) as [->|_]; [lia|].
  f_equal. apply to_int_small.
  pose proof (Z.mod_pos_bound (CInt.to_size_t (hashFunct st key)) P).
  unfold CInt.INT_MAX in *. lia.
Qed.

(** C4: for a communicator of [P] ranks, [1 <= P <= INT_MAX], the rank that
    [getTargetRank] chooses for a key is the [size_t] value of
    [hashFunct(key)] modulo [P]. *)
Theorem getTargetRank_hash_mod (st : state) (key : K) :
  0 < Comm.getCommSize (commLayer st) <= CInt.INT_MAX ->
  getTargetRank st key
  = Some (CInt.to_size_t (hashFunct st key) mod Comm.getCommSize (commLayer st)).
Proof.
  intros HP. unfold getTargetRank.
  set (P := Comm.getCommSize (commLayer st)) in *.
  assert (HI : CInt.to_int P = P)
    by (apply to_int_small; unfold CInt.INT_MAX in *; lia).
  assert (HS : CInt.to_size_t P = P)
    by (apply to_size_t_small; unfold CInt.INT_MAX in *; lia).
  rewrite HI, HS.
  destruct (Z.eqb_spec P 0) as [->|_]; [lia|].
  f_equal. apply to_int_small.
  pose proof (Z.mod_pos_bound (CInt.to_size_t (hashFunct st key)) P).
  unfold CInt.INT_MAX in *. lia.
Qed.

Lemma getTargetRank_range (st : state) (key : K) (r : Z) :
  0 < Comm.getCommSize (commLayer st) <= CInt.INT_MAX ->
  getTargetRank st key = Some r ->
  0 <= r < Comm.getCommSize (commLayer st).
Proof.
  intros HP. rewrite getTargetRank_value by done.
  intros [= <-]. apply Z.mod_pos_bound. lia.
Qed.

(** The rank of a key depends on the hash function and the communicator size
    only. *)
Lemma getTargetRank_ext (st st' : state) (key : K) :
  hashFunct st' = hashFunct st ->
  Comm.commSize (commLayer st') = Comm.commSize (commLayer st) ->
  getTargetRank st' key = getTargetRank st key.
Proof.
  intros Hh Hc. unfold getTargetRank, Comm.getCommSize. by rewrite Hh, Hc.
Qed.

End Routing.

(** C4 at a concrete input: three ranks, key 5. *)
Lemma getTargetRank_hash_mod_witness : getTargetRank multimap3 x05 = Some 2.
Proof.
  apply (getTargetRank_hash_mod multimap3 x05).
  vm_compute. split; [reflexivity | discriminate].
Defined.

(** ** Loops *)

Definition outcome_holds {S : Type} (I : S -> Prop) (o : outcome S) : Prop :=
  match o with
  | Normal s => I s
  | Thrown _ s => I s
  | Undefined => True
  end.

Lemma for_each_invariant {S B : Type} (I : S -> Prop) (body : B -> S -> outcome S)
  (l : list B) (s : S) :
  (forall x s, I s -> outcome_holds I (body x s)) ->
  I s -> outcome_holds I (for_each body l s).
Proof.
  intros Hbody. revert s.
  induction l as [|x l IH]; intros s Hs; [done|].
  cbn [for_each]. specialize (Hbody x s Hs).
  destruct (body x s) as [s'|e s'|]; cbn in *; auto.
Qed.

Lemma fold_left_invariant {S B : Type} (I : S -> Prop) (body : S -> B -> S)
  (l : list B) (s : S) :
  (forall x s, I s -> I (body s x)) -> I s -> I (fold_left body l s).
Proof.
  intros Hbody. revert s.
  induction l as [|x l IH]; intros s Hs; cbn; auto.
Qed.

(** A loop whose body always returns is a fold. *)
Lemma for_each_normal {S B : Type} (f : B -> S -> S) (l : list B) (s : S) :
  for_each (fun x s => Normal (f x s)) l s = Normal (fold_left (fun s x => f x s) l s).
Proof.
  revert s. induction l as [|x l IH]; intros s; [done|].
  cbn. apply IH.
Qed.

(** ** [asyncLookup] *)

Section AsyncLookup.
Context {K T C U : Type}.
Context `{!TriviallyCopyable K}.

Local Abbreviation state := (map_state K T C U).



End AsyncLookup.

(** ** Stability of the routing over the life of a map *)

Section Stability.
Context {K T : Type} `{EqDecision K}.
Context `{!TriviallyCopyable K} `{!TriviallyCopyable (K * T)}.

Local Abbreviation state := (map_state K T (list (K * T)) (list (K * T))).

(** The hash function and the communicator size of [st] are those of [st0]. *)
Definition same_routing (st0 st : state) : Prop :=
  hashFunct st = hashFunct st0
  /\ Comm.commSize (commLayer st) = Comm.commSize (commLayer st0).

Lemma same_routing_refl (st : state) : same_routing st st.
Proof. done. Qed.

Lemma sendPair_routing (st0 st : state) (p : K * T) (dst tg : Z) :
  same_routing st0 st -> same_routing st0 (sendPair p dst tg st).
Proof. done. Qed.

Lemma sendKey_routing (st0 st : state) (key : K) (dst tg : Z) :
  same_routing st0 st -> same_routing st0 (sendKey key dst tg st).
Proof. done. Qed.

Lemma flush_routing (st0 st : state) :
  same_routing st0 st -> same_routing st0 (flush st).
Proof.
  unfold flush. intros Hst.
  destruct (has_pending_inserts st); cbn;
    destruct (has_pending_lookups st); done.
Qed.

Lemma receivedLookupCallback_routing (st0 st : state) msg count fromRank :
  same_routing st0 st ->
  same_routing st0 (receivedLookupCallback msg count fromRank st).
Proof.
  unfold receivedLookupCallback.
  apply fold_left_invariant. intros key s.
  apply fold_left_invariant. intros it s'. apply sendPair_routing.
Qed.

Lemma receivedInsertCallback_routing (st0 st : state) msg count fromRank :
  same_routing st0 st ->
  same_routing st0 (Multimap.receivedInsertCallback msg count fromRank st).
Proof.
  unfold Multimap.receivedInsertCallback.
  apply fold_left_invariant. by intros e s.
Qed.

Lemma perform_routing (st0 st : state) (o : operation) :
  same_routing st0 st -> outcome_holds (same_routing st0) (perform o st).
Proof.
  intros Hst. destruct o; cbn [perform].
  - by apply flush_routing.
  - unfold asyncLookup.
    destruct (lookupAnswerCallbackFunc st); [|done].
    by destruct (getTargetRank st key).
  - done.
  - unfold Multimap.insert. by destruct (getTargetRank st keyvalue.1).
  - unfold Multimap.insert_kv. by destruct (getTargetRank st key).
  - unfold Multimap.populate. apply for_each_invariant; [|done].
    intros it s Hs. by destruct (getTargetRank s it.1).
  - by apply receivedInsertCallback_routing.
  - by apply receivedLookupCallback_routing.
  - unfold receivedLookupAnswerCallback. apply for_each_invariant; [|done].
    intros e s Hs. by destruct (lookupAnswerCallbackFunc s).
Qed.

Lemma history_routing (ops : list operation) (st0 st st' : state) :
  same_routing st0 st -> history ops st = Some st' -> same_routing st0 st'.
Proof.
  revert st. induction ops as [|o ops IH]; intros st Hst; cbn [history].
  - by intros [= <-].
  - pose proof (perform_routing st0 st o Hst) as Ho.
    destruct (perform o st) as [s|e s|]; cbn in Ho; [eauto..|done].
Qed.

(** C5: whatever operations are performed on a map object between two calls,
    [getTargetRank] gives the same rank for the same key. *)
Theorem getTargetRank_stable (ops : list operation) (st st' : state) (key : K) :
  history ops st = Some st' ->
  getTargetRank st' key = getTargetRank st key.
Proof.
  intros Hops.
  destruct (history_routing ops st st st' (same_routing_refl st) Hops)
    as [Hh Hc].
  by apply getTargetRank_ext.
Qed.

End Stability.

(** C5 at a concrete history on a map of three ranks: the callback is set,
    two pairs are inserted, a key is looked up and the map is flushed. *)
Lemma getTargetRank_stable_witness :
  exists st',
    history
      [op_setLookupAnswerCallback (Some collect); op_insert (x07, x01);
       op_insert_kv x08 x02; op_asyncLookup x07; op_flush]
      multimap3 = Some st'
    /\ getTargetRank st' x07 = getTargetRank multimap3 x07.
Proof.
  eexists. split.
  - vm_compute. reflexivity.
  - apply (getTargetRank_stable
             [op_setLookupAnswerCallback (Some collect); op_insert (x07, x01);
              op_insert_kv x08 x02; op_asyncLookup x07; op_flush]).
    vm_compute. reflexivity.
Defined.

(** ** Local containers: what [equal_range] returns *)

Class LawfulContainer (K T C : Type) `{EqDecision K} `{!LocalContainer K T C} := {
  equal_range_empty : forall k : K, equal_range (T := T) (C := C) lc_empty k = [];
  equal_range_elements :
    forall (m : C) (k : K),
      equal_range m k ≡ₚ filter (fun p : K * T => p.1 = k) (lc_elements m)
}.

Lemma multimap_equal_range_empty {K T : Type} `{EqDecision K} (k : K) :
  equal_range (T := T) (C := list (K * T)) lc_empty k = [].
Proof. reflexivity. Qed.

Lemma multimap_equal_range_elements {K T : Type} `{EqDecision K}
  (m : list (K * T)) (k : K) :
  equal_range m k ≡ₚ filter (fun p : K * T => p.1 = k) (lc_elements m).
Proof. reflexivity. Qed.

#[export] Instance multimap_lawful {K T : Type} `{EqDecision K}
  : LawfulContainer K T (list (K * T)) :=
  {| equal_range_empty := multimap_equal_range_empty;
     equal_range_elements := multimap_equal_range_elements |}.

Lemma counting_equal_range_empty {K : Type} `{Countable K} (k : K) :
  equal_range (T := count_t) (C := gmap K count_t) lc_empty k = [].
Proof.
  cbn. unfold counting_equal_range. by rewrite lookup_empty.
Qed.

Lemma counting_equal_range_elements {K : Type} `{Countable K}
  (m : gmap K count_t) (k : K) :
  equal_range m k ≡ₚ filter (fun p : K * count_t => p.1 = k) (lc_elements m).
Proof.
  cbn. unfold counting_equal_range.
  apply NoDup_Permutation.
  - destruct (m !! k); [apply NoDup_singleton | apply NoDup_nil_2].
  - apply NoDup_filter, NoDup_map_to_list.
  - intros [k' v']. rewrite list_elem_of_filter, elem_of_map_to_list. cbn.
    destruct (m !! k) as [v|] eqn:Hk.
    + rewrite list_elem_of_singleton. split.
      * intros [= -> ->]. done.
      * intros [-> Hv]. congruence.
    + split; [by intros ?%elem_of_nil|].
      intros [-> Hv]. congruence.
Qed.

#[export] Instance counting_lawful {K : Type} `{Countable K}
  : LawfulContainer K count_t (gmap K count_t) :=
  {| equal_range_empty := counting_equal_range_empty;
     equal_range_elements := counting_equal_range_elements |}.

(** ** What the callbacks queue and store *)

Section CallbackFacts.
Context {K T C U : Type}.
Context `{!TriviallyCopyable K} `{!TriviallyCopyable (K * T)}.
Context `{!LocalContainer K T C}.

Local Abbreviation state := (map_state K T C U).

(** [st] with [msgs] appended to its send queue. *)
Definition enqueue (msgs : list Comm.Message) (st : state) : state :=
  set_commLayer
    {| Comm.commSize := Comm.commSize (commLayer st);
       Comm.receiveCallbacks := Comm.receiveCallbacks (commLayer st);
       Comm.sendQueue := Comm.sendQueue (commLayer st) ++ msgs |}
    st.

(** One message per object, all for the same rank and tag. *)
Definition messages_for {A : Type} `{!TriviallyCopyable A} (dst tg : Z)
  (xs : list A) : list Comm.Message :=
  (fun x => {| Comm.payload := to_bytes x; Comm.dstRank := dst; Comm.tag := tg |})
    <$> xs.

Lemma enqueue_nil (st : state) : enqueue [] st = st.
Proof.
  destruct st as [[] ? ? ? ? ? ? ?]. unfold enqueue, set_commLayer. cbn.
  by rewrite app_nil_r.
Qed.

Lemma enqueue_app (a b : list Comm.Message) (st : state) :
  enqueue (a ++ b) st = enqueue b (enqueue a st).
Proof. unfold enqueue, set_commLayer. cbn. by rewrite app_assoc. Qed.

Lemma sendPair_enqueue (p : K * T) (dst tg : Z) (st : state) :
  sendPair p dst tg st = enqueue (messages_for dst tg [p]) st.
Proof.
  unfold sendPair, enqueue, Comm.sendMessage, messages_for. cbn.
  rewrite Nat2Z.id.
  by rewrite take_ge by (by rewrite to_bytes_length).
Qed.

Lemma sendKey_enqueue (key : K) (dst tg : Z) (st : state) :
  sendKey key dst tg st = enqueue (messages_for dst tg [key]) st.
Proof.
  unfold sendKey, enqueue, Comm.sendMessage, messages_for. cbn.
  rewrite Nat2Z.id.
  by rewrite take_ge by (by rewrite to_bytes_length).
Qed.

Lemma messages_for_app {A : Type} `{!TriviallyCopyable A} (dst tg : Z)
  (xs ys : list A) :
  messages_for dst tg (xs ++ ys) = messages_for dst tg xs ++ messages_for dst tg ys.
Proof. unfold messages_for. by rewrite fmap_app. Qed.

Lemma sendPair_loop (ps : list (K * T)) (dst tg : Z) (st : state) :
  fold_left (fun st it => sendPair it dst tg st) ps st
  = enqueue (messages_for dst tg ps) st.
Proof.
  revert st. induction ps as [|p ps IH]; intros st; cbn [fold_left].
  - by rewrite enqueue_nil.
  - rewrite IH, sendPair_enqueue, <- enqueue_app.
    by rewrite <- messages_for_app.
Qed.

(** The lookup loop: the answers to [keys], in order. *)
Lemma lookup_loop (keys : list K) (fromRank : Z) (st : state) :
  fold_left
    (fun st key =>
       fold_left (fun st it => sendPair it fromRank LOOKUP_ANSWER_MPI_TAG st)
         (equal_range (local_map st) key) st)
    keys st
  = enqueue
      (messages_for fromRank LOOKUP_ANSWER_MPI_TAG
         (keys ≫= equal_range (local_map st)))
      st.
Proof.
  revert st. induction keys as [|key keys IH]; intros st; cbn [fold_left].
  - by rewrite enqueue_nil.
  - rewrite sendPair_loop, IH. cbn [local_map enqueue set_commLayer].
    rewrite <- enqueue_app, <- messages_for_app. reflexivity.
Qed.

Lemma receivedLookupCallback_enqueue (msg : list byte) (count fromRank : Z)
  (st : state) :
  receivedLookupCallback msg count fromRank st
  = enqueue
      (messages_for fromRank LOOKUP_ANSWER_MPI_TAG
         (received_elements (A := K) msg count ≫= equal_range (local_map st)))
      st.
Proof. apply lookup_loop. Qed.

(** The answer loop with a callback set: the callback runs on every pair, in
    order. *)
Lemma answer_loop (f : K * T -> U -> U) (ps : list (K * T)) (st : state) :
  lookupAnswerCallbackFunc st = Some f ->
  for_each
    (fun e st =>
       match lookupAnswerCallbackFunc st with
       | None => Thrown bad_function_call st
       | Some f => Normal (set_caller_state (f e (caller_state st)) st)
       end)
    ps st
  = Normal (set_caller_state (fold_left (fun u p => f p u) ps (caller_state st)) st).
Proof.
  revert st. induction ps as [|p ps IH]; intros st Hf; cbn [for_each fold_left].
  - by destruct st.
  - rewrite Hf. cbn [and_then]. by rewrite IH.
Qed.

End CallbackFacts.

(** ** The lookup callback *)

Lemma filter_disjoint_or {A : Type} (P Q : A -> Prop)
  `{forall x, Decision (P x)} `{forall x, Decision (Q x)} (l : list A) :
  (forall x, P x -> Q x -> False) ->
  filter (fun x => P x \/ Q x) l ≡ₚ filter P l ++ filter Q l.
Proof.
  intros Hdisj. induction l as [|x l IH]; [done|].
  rewrite !filter_cons.
  destruct (decide (P x)) as [HP|HP], (decide (Q x)) as [HQ|HQ].
  - destruct (Hdisj x HP HQ).
  - rewrite decide_True by auto. cbn. by rewrite IH.
  - rewrite decide_True by auto. rewrite IH.
    by rewrite Permutation_middle.
  - rewrite decide_False by tauto. done.
Qed.

(** Distinct keys select disjoint parts of a list of pairs. *)
Lemma bind_filter_key {K T : Type} `{EqDecision K} (keys : list K)
  (l : list (K * T)) :
  NoDup keys ->
  keys ≫= (fun k => filter (fun p : K * T => p.1 = k) l)
  ≡ₚ filter (fun p : K * T => p.1 ∈ keys) l.
Proof.
  induction 1 as [|k keys Hk Hnd IH]; cbn [mbind list_bind].
  - symmetry. apply Permutation_nil_r.
    induction l as [|p l IHl]; [done|].
    rewrite filter_cons, decide_False by apply not_elem_of_nil. done.
  - change (foldr _ _ _) with
      (keys ≫= (fun k => filter (fun p : K * T => p.1 = k) l)).
    rewrite IH.
    rewrite (list_filter_iff (fun p : K * T => p.1 ∈ k :: keys)
               (fun p : K * T => p.1 = k \/ p.1 ∈ keys))
      by (intros p; apply elem_of_cons).
    symmetry. apply filter_disjoint_or. by intros p -> Hp.
Qed.

Lemma bind_nothing {A B : Type} (l : list A) : l ≫= (fun _ => @nil B) = [].
Proof. by induction l. Qed.

Section LookupCallback.
Context {K T C U : Type} `{EqDecision K}.
Context `{!TriviallyCopyable K} `{!TriviallyCopyable (K * T)}.
Context `{!LocalContainer K T C} `{!LawfulContainer K T C}.

Local Abbreviation state := (map_state K T C U).

Lemma answers_by_key (keys : list K) (m : C) :
  keys ≫= equal_range m
  ≡ₚ keys ≫= (fun k => filter (fun p : K * T => p.1 = k) (lc_elements m)).
Proof.
  induction keys as [|k keys IH]; [done|].
  cbn [mbind list_bind foldr]. cbn [mbind list_bind] in IH.
  by rewrite IH, equal_range_elements.
Qed.

(** The claim as it is worded: the callback answers with exactly the local
    pairs whose key is among the queried keys, each once. *)
Definition one_answer_per_match (keys : list K) (fromRank : Z) (st : state)
  : Prop :=
  exists answers : list (K * T),
    receivedLookupCallback (serialize keys) (Z.of_nat (length (serialize keys)))
      fromRank st
    = enqueue (messages_for fromRank LOOKUP_ANSWER_MPI_TAG answers) st
    /\ answers ≡ₚ filter (fun p : K * T => p.1 ∈ keys) (lc_elements (local_map st)).

(** C6, amended: on a received batch of at most [INT_MAX] keys, the lookup
    callback queues for the requesting rank, under [LOOKUP_ANSWER_MPI_TAG],
    one answer per key of the batch and local pair with that key, key by key
    in batch order; a key without a local match adds nothing, and a key
    repeated in the batch is answered once per repetition.  When the batch
    repeats no key, the answers are exactly the local pairs whose key is in
    the batch, each once. *)
Theorem receivedLookupCallback_answers (keys : list K) (fromRank : Z)
  (st : state) :
  Z.of_nat (length keys) <= CInt.INT_MAX ->
  receivedLookupCallback (serialize keys) (Z.of_nat (length (serialize keys)))
    fromRank st
  = enqueue
      (messages_for fromRank LOOKUP_ANSWER_MPI_TAG
         (keys ≫= equal_range (local_map st)))
      st
  /\ keys ≫= equal_range (local_map st)
     ≡ₚ keys ≫= (fun k => filter (fun p : K * T => p.1 = k)
                            (lc_elements (local_map st)))
  /\ (NoDup keys -> one_answer_per_match keys fromRank st).
Proof.
  intros Hlen.
  assert (Hrecv :
    receivedLookupCallback (serialize keys) (Z.of_nat (length (serialize keys)))
      fromRank st
    = enqueue
        (messages_for fromRank LOOKUP_ANSWER_MPI_TAG
           (keys ≫= equal_range (local_map st)))
        st).
  { rewrite receivedLookupCallback_enqueue. by rewrite received_serialize. }
  split; [exact Hrecv|]. split; [apply answers_by_key|].
  intros Hnd. eexists. split; [exact Hrecv|].
  rewrite answers_by_key. by apply bind_filter_key.
Qed.

(** C8: on an empty local container the lookup callback returns normally
    with the object unchanged, so nothing is sent back, whatever the batch;
    and so it does on an empty batch, whatever the container. *)
Theorem lookup_in_empty_map (fromRank : Z) (st : state) :
  (local_map st = lc_empty ->
   forall (msg : list byte) (count : Z),
     returning receivedLookupCallback msg count fromRank st = Normal st)
  /\ returning receivedLookupCallback [] 0 fromRank st = Normal st.
Proof.
  unfold returning. split.
  - intros Hempty msg count. f_equal.
    rewrite receivedLookupCallback_enqueue, Hempty.
    rewrite (list_bind_ext _ (fun _ => []) _ (received_elements msg count))
      by (intros; try apply equal_range_empty; done).
    rewrite bind_nothing. apply enqueue_nil.
  - reflexivity.
Qed.

End LookupCallback.

(** C8 at a concrete input: keys 1 and 2 queried by rank 0 on a freshly
    constructed multimap. *)
Lemma lookup_in_empty_map_witness :
  returning receivedLookupCallback [x01; x02] 2 0 multimap3 = Normal multimap3.
Proof.
  apply (proj1 (lookup_in_empty_map 0 multimap3)). reflexivity.
Defined.

(** C6 at a concrete input: keys 1 and 2 queried by rank 0 on a shard
    holding (1,10), (3,11), (1,12). *)
Lemma receivedLookupCallback_answers_witness :
  one_answer_per_match [x01; x02] 0 shard3.
Proof.
  apply (receivedLookupCallback_answers [x01; x02] 0 shard3).
  - vm_compute. discriminate.
  - apply (bool_decide_unpack _). vm_compute. exact I.
Defined.

(** C6 as worded fails when a key is repeated in the batch: the shard holds
    the single pair (1,10), key 1 is queried twice, and two answers are
    queued for that one pair. *)
Lemma lookup_repeated_key_counterexample :
  ~ one_answer_per_match [x01; x01] 0 shard1.
Proof.
  intros (answers & Hsent & Hperm).
  apply Permutation_length in Hperm.
  change (length answers = 1%nat) in Hperm.
  apply (f_equal (fun st => length (Comm.sendQueue (commLayer st)))) in Hsent.
  unfold enqueue, messages_for in Hsent.
  cbn [set_commLayer commLayer Comm.sendQueue] in Hsent.
  rewrite length_app, length_fmap, Hperm in Hsent.
  vm_compute in Hsent. discriminate.
Qed.

(** ** Queued messages, by tag and destination *)

Section QueueFacts.
Context {A : Type} `{!TriviallyCopyable A}.

(** One message per object, each for the rank [target] gives it. *)
Definition routed_messages (target : A -> Z) (tg : Z) (xs : list A)
  : list Comm.Message :=
  (fun x => {| Comm.payload := to_bytes x; Comm.dstRank := target x; Comm.tag := tg |})
    <$> xs.

Lemma messages_for_routed (dst tg : Z) (xs : list A) :
  messages_for dst tg xs = routed_messages (fun _ => dst) tg xs.
Proof. reflexivity. Qed.

Lemma sent_to_app (tg d : Z) (q1 q2 : list Comm.Message) :
  Comm.sent_to tg d (q1 ++ q2) = Comm.sent_to tg d q1 ++ Comm.sent_to tg d q2.
Proof. unfold Comm.sent_to. by rewrite filter_app, fmap_app, concat_app. Qed.

Lemma sent_to_routed (target : A -> Z) (tg d : Z) (xs : list A) :
  Comm.sent_to tg d (routed_messages target tg xs)
  = serialize (filter (fun x => target x = d) xs).
Proof.
  unfold Comm.sent_to, routed_messages.
  induction xs as [|x xs IH]; [done|].
  rewrite fmap_cons, !filter_cons. cbn [Comm.tag Comm.dstRank].
  destruct (decide (target x = d)) as [Hd|Hd].
  - rewrite decide_True by done. rewrite fmap_cons. cbn [concat Comm.payload].
    by rewrite IH.
  - rewrite decide_False by tauto. apply IH.
Qed.

Lemma sent_to_other_tag (target : A -> Z) (tg tg' d : Z) (xs : list A) :
  tg <> tg' -> Comm.sent_to tg d (routed_messages target tg' xs) = [].
Proof.
  intros Htg. unfold Comm.sent_to, routed_messages.
  induction xs as [|x xs IH]; [done|].
  rewrite fmap_cons, filter_cons. cbn [Comm.tag].
  rewrite decide_False by (intros [? _]; congruence). apply IH.
Qed.

Lemma unsent_routed (target : A -> Z) (tg : Z) (xs : list A) :
  Comm.unsent tg (routed_messages target tg xs) = [].
Proof.
  unfold Comm.unsent, routed_messages.
  induction xs as [|x xs IH]; [done|].
  rewrite fmap_cons, filter_cons. cbn [Comm.tag].
  rewrite decide_False by tauto. apply IH.
Qed.

Lemma unsent_other_tag (target : A -> Z) (tg tg' : Z) (xs : list A) :
  tg <> tg' ->
  Comm.unsent tg (routed_messages target tg' xs) = routed_messages target tg' xs.
Proof.
  intros Htg. unfold Comm.unsent, routed_messages.
  induction xs as [|x xs IH]; [done|].
  rewrite fmap_cons, filter_cons. cbn [Comm.tag].
  rewrite decide_True by congruence. by rewrite IH.
Qed.

Lemma filter_all {B : Type} (P : B -> Prop) `{forall x, Decision (P x)}
  (l : list B) :
  (forall x, P x) -> filter P l = l.
Proof.
  intros HP. induction l as [|x l IH]; [done|].
  rewrite filter_cons, decide_True by done. by rewrite IH.
Qed.

Lemma sent_to_messages_for (tg d : Z) (xs : list A) :
  Comm.sent_to tg d (messages_for d tg xs) = serialize xs.
Proof.
  rewrite messages_for_routed, sent_to_routed. by rewrite filter_all.
Qed.

End QueueFacts.

(** ** Pairs across the message boundary *)

Section PairRoundTrip.
Context {K T C U : Type}.
Context `{!TriviallyCopyable K} `{!TriviallyCopyable T}.
Context `{!LocalContainer K T C}.
Variables pad_first pad_second : nat.

Local Abbreviation state := (map_state K T C U).

#[local] Instance pair_layout : TriviallyCopyable (K * T) :=
  pair_copyable pad_first pad_second.

(** C7: for trivially-copyable [K] and [T], and whatever padding the layout
    of [std::pair<K, T>] has, the bytes queued by one [sendPair] per pair of
    [ps] (at most [INT_MAX] pairs, on an empty queue), reinterpreted as
    [count / sizeof(std::pair<K, T>)] pairs, are the pairs of [ps] in order,
    and [receivedLookupAnswerCallback] invokes the caller's callback on
    exactly these, in order. *)
Theorem sendPair_round_trip (ps : list (K * T)) (dst tg fromRank : Z)
  (sender receiver : state) (f : K * T -> U -> U) :
  Z.of_nat (length ps) <= CInt.INT_MAX ->
  Comm.sendQueue (commLayer sender) = [] ->
  lookupAnswerCallbackFunc receiver = Some f ->
  let msg :=
    Comm.sent_to tg dst
      (Comm.sendQueue
         (commLayer (fold_left (fun st p => sendPair p dst tg st) ps sender))) in
  received_elements msg (Z.of_nat (length msg)) = ps
  /\ receivedLookupAnswerCallback msg (Z.of_nat (length msg)) fromRank receiver
     = Normal (set_caller_state
                 (fold_left (fun u p => f p u) ps (caller_state receiver))
                 receiver).
Proof.
  intros Hlen Hempty Hf msg.
  assert (Hmsg : msg = serialize ps).
  { subst msg. rewrite sendPair_loop. cbn [enqueue set_commLayer commLayer Comm.sendQueue].
    rewrite Hempty, app_nil_l. apply sent_to_messages_for. }
  rewrite Hmsg. split.
  - by apply received_serialize.
  - unfold receivedLookupAnswerCallback.
    rewrite received_serialize by done. by apply answer_loop.
Qed.

End PairRoundTrip.

(** C7 at a concrete input: three byte pairs sent to rank 2 with one byte of
    padding after each member, received by a rank that collects. *)
Lemma sendPair_round_trip_witness :
  @received_elements (byte * byte) (pair_copyable 1 1)
    (Comm.sent_to LOOKUP_ANSWER_MPI_TAG 2
       (Comm.sendQueue
          (commLayer
             (fold_left
                (fun st p =>
                   @sendPair byte byte _ _ (pair_copyable 1 1) p 2
                     LOOKUP_ANSWER_MPI_TAG st)
                [(x01, x0a); (x03, x0b); (x01, x0c)] multimap3))))
    12
  = [(x01, x0a); (x03, x0b); (x01, x0c)].
Proof.
  refine (proj1 (sendPair_round_trip 1 1 [(x01, x0a); (x03, x0b); (x01, x0c)]
                   2 LOOKUP_ANSWER_MPI_TAG 0 multimap3
                   (setLookupAnswerCallback (Some collect) multimap3) collect
                   _ _ _)).
  - vm_compute. discriminate.
  - reflexivity.
  - reflexivity.
Defined.

(** ** The insert callback of the multimap *)

Section InsertCallback.
Context {K T U : Type} `{EqDecision K}.
Context `{!TriviallyCopyable K} `{!TriviallyCopyable (K * T)}.

Local Abbreviation state := (map_state K T (list (K * T)) U).

Lemma set_local_map_same (st : state) : set_local_map (local_map st) st = st.
Proof. by destruct st. Qed.

Lemma insert_loop (es : list (K * T)) (st : state) :
  fold_left (fun st e => set_local_map (multimap_insert e (local_map st)) st) es st
  = set_local_map (local_map st ++ es) st.
Proof.
  revert st. induction es as [|e es IH]; intros st; cbn [fold_left].
  - by rewrite app_nil_r, set_local_map_same.
  - rewrite IH. unfold multimap_insert, set_local_map. cbn.
    by rewrite <- app_assoc.
Qed.

Lemma receivedInsertCallback_stores (msg : list byte) (count fromRank : Z)
  (st : state) :
  Multimap.receivedInsertCallback msg count fromRank st
  = set_local_map (local_map st ++ received_elements msg count) st.
Proof. apply insert_loop. Qed.

(** X6: the insert callback keeps every pair: on the bytes of [ps] (at most
    [INT_MAX] pairs) the container holds, as a multiset, the pairs it held
    and the pairs of [ps], duplicates included; so its size grows by
    [length ps] and every pair stored before is still there.  Nothing else
    of the object changes. *)
Lemma receivedInsertCallback_appends (ps : list (K * T)) (fromRank : Z)
  (st : state) :
  Z.of_nat (length ps) <= CInt.INT_MAX ->
  let st' :=
    Multimap.receivedInsertCallback (serialize ps)
      (Z.of_nat (length (serialize ps))) fromRank st in
  local_map st' ≡ₚ local_map st ++ ps
  /\ length (local_map st') = (length (local_map st) + length ps)%nat
  /\ (forall p, p ∈ local_map st -> p ∈ local_map st')
  /\ st' = set_local_map (local_map st') st.
Proof.
  intros Hlen st'. subst st'.
  rewrite receivedInsertCallback_stores, received_serialize by done.
  cbn [local_map set_local_map]. split; [done|]. split; [|split].
  - apply length_app.
  - intros p Hp. apply elem_of_app. by left.
  - done.
Qed.

(** C3: the constructor of [distributed_multimap] binds [INSERT_MPI_TAG] to
    [&distributed_multimap::receivedCountCallback], a member the class does
    not declare: an insert message is dispatched to no callback, and
    [receivedInsertCallback] is bound to no tag. *)
Theorem multimap_insert_tag_unbound (mpi_comm comm_size : Z)
  (hashFunction : K -> Z) (u : U) :
  let cl := commLayer (Multimap.constructor (T := T) mpi_comm comm_size hashFunction u) in
  Comm.dispatch INSERT_MPI_TAG cl = None
  /\ (forall tg, Comm.dispatch tg cl <> Some receivedInsertCallback_name)
  /\ Comm.dispatch LOOKUP_MPI_TAG cl = Some receivedLookupCallback_name
  /\ Comm.dispatch LOOKUP_ANSWER_MPI_TAG cl = Some receivedLookupAnswerCallback_name.
Proof.
  cbn. repeat split.
  intros tg. unfold Comm.dispatch.
  change (Comm.receiveCallbacks _) with
    [(INSERT_MPI_TAG, @None member_name);
     (LOOKUP_MPI_TAG, Some receivedLookupCallback_name);
     (LOOKUP_ANSWER_MPI_TAG, Some receivedLookupAnswerCallback_name)].
  rewrite !filter_cons, filter_nil. cbn [fst].
  repeat case_decide; discriminate.
Qed.

End InsertCallback.

(** The counting map binds its own insert callback. *)
Lemma counting_insert_tag_bound {K U : Type} `{Countable K}
  (mpi_comm comm_size : Z) (hashFunction : K -> Z) (u : U) :
  Comm.dispatch INSERT_MPI_TAG
    (commLayer (CountingMap.constructor mpi_comm comm_size hashFunction u))
  = Some receivedCountCallback_name.
Proof. reflexivity. Qed.

(** ** The system of ranks: operations and deliveries *)

Lemma and_then_return {S : Type} (o : outcome S) (f : S -> outcome S) :
  (forall s, f s = Normal s) -> and_then o f = o.
Proof. intros Hf. destruct o; cbn; auto. Qed.

Lemma for_each_app {S B : Type} (body : B -> S -> outcome S) (l1 l2 : list B)
  (s : S) :
  for_each body (l1 ++ l2) s = and_then (for_each body l1 s) (for_each body l2).
Proof.
  revert s. induction l1 as [|x l1 IH]; intros s; [done|].
  cbn [app for_each]. destruct (body x s) as [s'|e s'|]; cbn; auto.
Qed.

Section SystemFacts.
Context {K T C U : Type}.

Local Abbreviation state := (map_state K T C U).

(** The system of [P] ranks whose rank [d] is in state [f d]. *)
Definition ranks (P : nat) (f : nat -> state) : list state := f <$> seq 0 P.

Lemma ranks_length (P : nat) (f : nat -> state) : length (ranks P f) = P.
Proof. unfold ranks. by rewrite length_fmap, length_seq. Qed.

Lemma ranks_lookup (P : nat) (f : nat -> state) (d : nat) :
  (d < P)%nat -> ranks P f !! d = Some (f d).
Proof.
  intros Hd. unfold ranks. rewrite list_lookup_fmap.
  by rewrite (proj2 (lookup_seq 0 P d d)) by (split; [done | lia]).
Qed.

Lemma ranks_lookup_ge (P : nat) (f : nat -> state) (d : nat) :
  (P <= d)%nat -> ranks P f !! d = None.
Proof. intros Hd. apply lookup_ge_None. by rewrite ranks_length. Qed.

Lemma replicate_ranks (P : nat) (st : state) :
  replicate P st = ranks P (fun _ => st).
Proof.
  unfold ranks. symmetry.
  transitivity (replicate (length (seq 0 P)) st).
  - by apply const_fmap.
  - by rewrite length_seq.
Qed.

Lemma ranks_ext (P : nat) (f g : nat -> state) :
  (forall d, (d < P)%nat -> f d = g d) -> ranks P f = ranks P g.
Proof.
  intros Hfg. apply list_eq. intros d.
  destruct (decide (d < P)%nat) as [Hd|Hd].
  - rewrite !ranks_lookup by done. f_equal. auto.
  - rewrite !ranks_lookup_ge by lia. done.
Qed.

Lemma at_rank_ranks (P r : nat) (f : nat -> state) (g : state -> outcome state)
  (st' : state) :
  (r < P)%nat -> g (f r) = Normal st' ->
  at_rank r g (ranks P f)
  = Some (ranks P (fun d => if decide (d = r) then st' else f d)).
Proof.
  intros Hr Hg. unfold at_rank.
  rewrite ranks_lookup by done. cbn [mbind option_bind].
  rewrite Hg. cbn [completed mbind option_bind]. f_equal.
  apply list_eq. intros d. rewrite list_lookup_insert, ranks_length.
  destruct (decide (d < P)%nat) as [Hd|Hd].
  - rewrite !ranks_lookup by done.
    destruct (decide (d = r)) as [->|Hne].
    + by rewrite decide_True.
    + rewrite decide_False by (intros [? _]; congruence). done.
  - rewrite !ranks_lookup_ge by lia.
    rewrite decide_False by (intros [-> _]; lia). done.
Qed.

Lemma inbox_ranks (tg : Z) (d P : nat) (f : nat -> state) :
  inbox tg d (ranks P f)
  = (fun s => (s, Comm.sent_to tg (Z.of_nat d) (Comm.sendQueue (commLayer (f s)))))
      <$> seq 0 P.
Proof.
  unfold inbox, ranks. rewrite imap_fmap.
  transitivity
    ((fun s => (s, Comm.sent_to tg (Z.of_nat d) (Comm.sendQueue (commLayer (f s)))))
       <$> seq 0 (length (seq 0 P))).
  - rewrite <- (imap_seq (seq 0 P)
      (fun s => (s, Comm.sent_to tg (Z.of_nat d) (Comm.sendQueue (commLayer (f s))))) 0).
    apply imap_ext. intros i x Hx. apply lookup_seq in Hx as [-> _]. done.
  - by rewrite length_seq.
Qed.

Lemma deliver_ranks (recv : callback) (tg : Z) (P : nat) (f G : nat -> state) :
  (forall d, (d < P)%nat ->
     receive_all recv (inbox tg d (ranks P f))
       (set_commLayer (Comm.flushed tg (commLayer (f d))) (f d))
     = Normal (G d)) ->
  deliver recv tg (ranks P f) = Some (ranks P G).
Proof.
  intros Hrecv. unfold deliver. apply mapM_Some.
  rewrite ranks_length. unfold ranks at 2. apply Forall2_fmap_r.
  apply Forall_Forall2_diag, Forall_seq. intros d Hd. unfold compose.
  fold (ranks P f). rewrite ranks_lookup by lia. cbn [mbind option_bind].
  rewrite Hrecv by lia. done.
Qed.

(** A callback that does nothing on an empty message. *)
Definition ignores_empty (recv : callback) : Prop :=
  forall (s : Z) (st : state), recv [] 0 s st = Normal st.

Lemma receive_all_quiet (recv : callback) (srcs : list nat)
  (h : nat -> list byte) (st : state) :
  ignores_empty recv ->
  (forall s, s ∈ srcs -> h s = []) ->
  receive_all recv ((fun s => (s, h s)) <$> srcs) st = Normal st.
Proof.
  intros Hrecv. unfold receive_all.
  induction srcs as [|s srcs IH]; intros Hq; [done|].
  rewrite fmap_cons. cbn [for_each fst snd].
  rewrite (Hq s) by apply list_elem_of_here. cbn [length].
  rewrite Hrecv. cbn [and_then]. apply IH.
  intros s' Hs'. apply Hq. by apply list_elem_of_further.
Qed.

(** Only rank [r] has queued something: the receiver sees one message. *)
Lemma receive_all_single (recv : callback) (P r : nat) (h : nat -> list byte)
  (st : state) :
  ignores_empty recv -> (r < P)%nat ->
  (forall s, s <> r -> h s = []) ->
  receive_all recv ((fun s => (s, h s)) <$> seq 0 P) st
  = recv (h r) (Z.of_nat (length (h r))) (Z.of_nat r) st.
Proof.
  intros Hrecv Hr Hq.
  replace P with (r + S (P - S r))%nat by lia.
  rewrite seq_app. cbn [seq]. rewrite fmap_app, fmap_cons.
  unfold receive_all at 1. rewrite for_each_app.
  fold (receive_all recv ((fun s => (s, h s)) <$> seq 0 r) st).
  rewrite receive_all_quiet; [|done|].
  2:{ intros s Hs. apply Hq. apply elem_of_seq in Hs. lia. }
  cbn [and_then for_each fst snd].
  apply and_then_return. intros s.
  apply (receive_all_quiet recv _ h s Hrecv).
  intros s' Hs'. apply Hq. apply elem_of_seq in Hs'. lia.
Qed.

End SystemFacts.

(** ** Populate, then look up: the multimap over [P] ranks *)

Lemma filter_all_in {B : Type} (P : B -> Prop) `{forall x, Decision (P x)}
  (l : list B) :
  (forall x, x ∈ l -> P x) -> filter P l = l.
Proof.
  induction l as [|x l IH]; intros HP; [done|].
  rewrite filter_cons, decide_True by (apply HP, list_elem_of_here).
  rewrite IH; [done|]. intros y Hy. by apply HP, list_elem_of_further.
Qed.

Lemma filter_none {B : Type} (P : B -> Prop) `{forall x, Decision (P x)}
  (l : list B) :
  (forall x, ~ P x) -> filter P l = [].
Proof.
  intros HP. induction l as [|x l IH]; [done|].
  by rewrite filter_cons, decide_False.
Qed.

(** Splitting a list by the rank of its elements loses and repeats nothing. *)
Lemma split_by_rank {B : Type} (g : B -> Z) (l : list B) (P : nat) :
  concat ((fun s => filter (fun x => g x = Z.of_nat s) l) <$> seq 0 P)
  ≡ₚ filter (fun x => 0 <= g x < Z.of_nat P) l.
Proof.
  induction P as [|P IH].
  - cbn. rewrite filter_none by (intros x; lia). done.
  - rewrite seq_S, fmap_app, concat_app, IH. cbn [fmap list_fmap concat].
    rewrite app_nil_r, Nat.add_0_l.
    rewrite <- filter_disjoint_or by (intros x ? ?; lia).
    apply eq_subrelation; [apply _|].
    apply list_filter_iff. intros x. lia.
Qed.

Lemma bind_concat {A B : Type} (f : A -> list B) (ls : list (list A)) :
  concat ls ≫= f = concat ((fun l => l ≫= f) <$> ls).
Proof.
  induction ls as [|l ls IH]; [done|].
  cbn [concat]. rewrite bind_app, IH. done.
Qed.

Lemma collect_loop {K T : Type} (ps answers : list (K * T)) :
  fold_left (fun u p => collect p u) ps answers = answers ++ ps.
Proof.
  revert answers. induction ps as [|p ps IH]; intros answers; cbn [fold_left].
  - by rewrite app_nil_r.
  - rewrite IH. unfold collect. by rewrite <- app_assoc.
Qed.

Section ProtocolFacts.
Context {K T C : Type}.
Context `{!TriviallyCopyable K} `{!TriviallyCopyable (K * T)}.
Context `{!LocalContainer K T C}.
Variables (P : nat) (mpi_comm : Z) (hashFunction : K -> Z).
Variable callbacks : list (Z * option member_name).
Hypothesis P_ranks : 0 < Z.of_nat P <= CInt.INT_MAX.

Local Abbreviation state := (map_state K T C (list (K * T))).

(** The rank that owns a key. *)
Definition owner (key : K) : Z :=
  CInt.to_size_t (hashFunction key) mod Z.of_nat P.

Lemma owner_range (key : K) : 0 <= owner key < Z.of_nat P.
Proof. apply Z.mod_pos_bound. lia. Qed.

(** A map object of the communicator, by its mutable members. *)
Definition object (queue : list Comm.Message) (m : C)
  (pending_inserts pending_lookups : bool)
  (cb : option (K * T -> list (K * T) -> list (K * T)))
  (answers : list (K * T)) : state :=
  {| commLayer :=
       {| Comm.commSize := Z.of_nat P;
          Comm.receiveCallbacks := callbacks;
          Comm.sendQueue := queue |};
     comm := mpi_comm;
     hashFunct := hashFunction;
     local_map := m;
     has_pending_inserts := pending_inserts;
     has_pending_lookups := pending_lookups;
     lookupAnswerCallbackFunc := cb;
     caller_state := answers |}.

Lemma getTargetRank_object queue m pi pl cb answers (key : K) :
  getTargetRank (object queue m pi pl cb answers) key = Some (owner key).
Proof. by rewrite getTargetRank_value. Qed.

Lemma asyncLookup_object (keys : list K) queue m pi pl f answers :
  for_each asyncLookup keys (object queue m pi pl (Some f) answers)
  = Normal (object
              (queue ++ routed_messages owner LOOKUP_MPI_TAG keys)
              m pi (if keys is [] then pl else true) (Some f) answers).
Proof.
  revert queue pl.
  induction keys as [|key keys IH]; intros queue pl; cbn [for_each].
  - by rewrite app_nil_r.
  - unfold asyncLookup at 1. cbn [lookupAnswerCallbackFunc object].
    rewrite getTargetRank_object. cbn [and_then].
    rewrite sendKey_enqueue.
    change (set_has_pending_lookups true
              (enqueue ?msgs (object queue m pi pl (Some f) answers)))
      with (object (queue ++ msgs) m pi true (Some f) answers).
    rewrite IH. unfold routed_messages, messages_for.
    rewrite fmap_cons, <- app_assoc. by destruct keys.
Qed.

Lemma lookup_callback_object (keys : list K) (fromRank : Z)
  queue m pi pl cb answers :
  Z.of_nat (length keys) <= CInt.INT_MAX ->
  receivedLookupCallback (serialize keys)
    (Z.of_nat (length (serialize keys))) fromRank
    (object queue m pi pl cb answers)
  = object
      (queue ++ messages_for fromRank LOOKUP_ANSWER_MPI_TAG
                  (keys ≫= equal_range m))
      m pi pl cb answers.
Proof.
  intros Hlen.
  by rewrite receivedLookupCallback_enqueue, received_serialize.
Qed.

Lemma answer_callback_object (ps : list (K * T)) (fromRank : Z)
  queue m pi pl answers :
  Z.of_nat (length ps) <= CInt.INT_MAX ->
  receivedLookupAnswerCallback (serialize ps)
    (Z.of_nat (length (serialize ps))) fromRank
    (object queue m pi pl (Some collect) answers)
  = Normal (object queue m pi pl (Some collect) (answers ++ ps)).
Proof.
  intros Hlen. unfold receivedLookupAnswerCallback.
  rewrite received_serialize by done.
  rewrite (answer_loop collect) by done.
  cbn [caller_state object]. by rewrite collect_loop.
Qed.

Lemma ignores_empty_lookup :
  ignores_empty (K := K) (T := T) (C := C) (U := list (K * T))
    (returning receivedLookupCallback).
Proof. intros s st. reflexivity. Qed.

Lemma ignores_empty_answer :
  ignores_empty (K := K) (T := T) (C := C) (U := list (K * T))
    receivedLookupAnswerCallback.
Proof. intros s st. reflexivity. Qed.

Lemma flushed_object (tg : Z) queue m pi pl cb answers :
  set_commLayer (Comm.flushed tg (commLayer (object queue m pi pl cb answers)))
    (object queue m pi pl cb answers)
  = object (Comm.unsent tg queue) m pi pl cb answers.
Proof. reflexivity. Qed.

(** The part of a batch that is sent to rank [d]. *)
Definition shard_of {A : Type} (key_of : A -> K) (xs : list A) (d : nat) : list A :=
  filter (fun x => owner (key_of x) = Z.of_nat d) xs.

Lemma shard_of_length {A : Type} (key_of : A -> K) (xs : list A) (d : nat) :
  (length (shard_of key_of xs d) <= length xs)%nat.
Proof. apply length_filter. Qed.

Lemma shard_of_nil {A : Type} (key_of : A -> K) (d : nat) :
  shard_of key_of [] d = [].
Proof. reflexivity. Qed.

(** A collective flush when only rank [r] has queued messages of the tag:
    every rank receives, in one message, the objects it owns. *)
Lemma deliver_routed {A : Type} `{!TriviallyCopyable A} (recv : callback)
  (tg : Z) (r : nat) (key_of : A -> K) (xs : list A)
  (queue : list Comm.Message) (m : nat -> C) (pi pl : nat -> bool)
  (cb : nat -> option (K * T -> list (K * T) -> list (K * T)))
  (answers : nat -> list (K * T)) (G : nat -> state) :
  (r < P)%nat ->
  ignores_empty recv ->
  (forall d, (d < P)%nat ->
     recv (serialize (shard_of key_of xs d))
       (Z.of_nat (length (serialize (shard_of key_of xs d)))) (Z.of_nat r)
       (object [] (m d) (pi d) (pl d) (cb d) (answers d))
     = Normal (G d)) ->
  deliver recv tg
    (ranks P (fun d =>
       object
         (if decide (d = r)
          then routed_messages (fun x => owner (key_of x)) tg xs else [])
         (m d) (pi d) (pl d) (cb d) (answers d)))
  = Some (ranks P G).
Proof.
  intros Hr Hempty Hrecv. apply deliver_ranks. intros d Hd.
  rewrite inbox_ranks.
  rewrite (receive_all_single _ P r) by
    (done || (intros s Hs; cbn [commLayer object Comm.sendQueue];
              by rewrite decide_False by done)).
  cbn beta. rewrite flushed_object.
  rewrite decide_True by done. cbn [commLayer object Comm.sendQueue].
  rewrite sent_to_routed.
  replace (Comm.unsent tg
             (if decide (d = r)
              then routed_messages (fun x => owner (key_of x)) tg xs else []))
    with (@nil Comm.Message)
    by (destruct (decide (d = r)); [by rewrite unsent_routed | done]).
  by apply Hrecv.
Qed.

(** The answers of several ranks, received one rank after the other. *)
Lemma receive_answers (srcs : list nat) (A : nat -> list (K * T))
  queue m pi pl answers :
  (forall s, s ∈ srcs -> Z.of_nat (length (A s)) <= CInt.INT_MAX) ->
  receive_all receivedLookupAnswerCallback
    ((fun s => (s, serialize (A s))) <$> srcs)
    (object queue m pi pl (Some collect) answers)
  = Normal (object queue m pi pl (Some collect) (answers ++ concat (A <$> srcs))).
Proof.
  unfold receive_all. revert answers.
  induction srcs as [|s srcs IH]; intros answers Hlen.
  - cbn. by rewrite app_nil_r.
  - rewrite !fmap_cons. cbn [for_each fst snd concat].
    rewrite answer_callback_object by apply Hlen, list_elem_of_here.
    cbn [and_then]. rewrite IH, app_assoc; [done|].
    intros s' Hs'. by apply Hlen, list_elem_of_further.
Qed.

(** What rank [d] answers to the queries it owns. *)
Definition answers_of (shards : nat -> C) (keys : list K) (d : nat)
  : list (K * T) :=
  shard_of id keys d ≫= equal_range (shards d).

Lemma no_answers (shards : nat -> C) (srcs : list nat) :
  concat (answers_of shards [] <$> srcs) = [].
Proof. by induction srcs. Qed.

(** The answers are delivered to rank [r], which collects them rank by
    rank. *)
Lemma deliver_answers (r : nat) (shards : nat -> C) (keys : list K)
  (pl : bool) :
  (r < P)%nat ->
  (forall d, Z.of_nat (length (answers_of shards keys d)) <= CInt.INT_MAX) ->
  deliver receivedLookupAnswerCallback LOOKUP_ANSWER_MPI_TAG
    (ranks P (fun d =>
       object
         (messages_for (Z.of_nat r) LOOKUP_ANSWER_MPI_TAG (answers_of shards keys d))
         (shards d) false
         (if decide (d = r) then pl else false)
         (if decide (d = r) then Some collect else None) []))
  = Some (ranks P (fun d =>
       object [] (shards d) false
         (if decide (d = r) then pl else false)
         (if decide (d = r) then Some collect else None)
         (if decide (d = r)
          then concat (answers_of shards keys <$> seq 0 P) else []))).
Proof.
  intros Hr Hans. apply deliver_ranks. intros d Hd.
  rewrite inbox_ranks. cbn beta. rewrite flushed_object.
  rewrite messages_for_routed, unsent_routed.
  destruct (decide (d = r)) as [->|Hne].
  - rewrite (list_fmap_ext _
      (fun s => (s, serialize (answers_of shards keys s)))).
    2:{ intros i s _. cbn [commLayer object Comm.sendQueue].
        by rewrite sent_to_messages_for. }
    by rewrite receive_answers.
  - apply (receive_all_quiet receivedLookupAnswerCallback (seq 0 P)
             (fun s => Comm.sent_to LOOKUP_ANSWER_MPI_TAG (Z.of_nat d)
                (Comm.sendQueue
                   (commLayer
                      (object
                         (messages_for (Z.of_nat r) LOOKUP_ANSWER_MPI_TAG
                            (answers_of shards keys s))
                         (shards s) false
                         (if decide (s = r) then pl else false)
                         (if decide (s = r) then Some collect else None) []))))).
    + apply ignores_empty_answer.
    + intros s _. cbn [commLayer object Comm.sendQueue].
      rewrite messages_for_routed, sent_to_routed.
      by rewrite filter_none by lia.
Qed.

(** After the lookups and the flush, the caller holds the answers of all
    ranks, rank by rank. *)
Lemma looked_up_ranks (on_insert : callback) (r : nat) (shards : nat -> C)
  (keys : list K) :
  (r < P)%nat ->
  Z.of_nat (length keys) <= CInt.INT_MAX ->
  (forall d, Z.of_nat (length (answers_of shards keys d)) <= CInt.INT_MAX) ->
  looked_up on_insert r keys
    (ranks P (fun d => object [] (shards d) false false None []))
  = Some (concat (answers_of shards keys <$> seq 0 P)).
Proof.
  intros Hr Hkeys Hans. unfold looked_up.
  set (pl := if keys is [] then false else true).
  (* the lookups of rank r *)
  rewrite (at_rank_ranks P r _ _
             (object (routed_messages owner LOOKUP_MPI_TAG keys)
                (shards r) false pl (Some collect) []))
    by (done || apply (asyncLookup_object keys [] (shards r) false false collect [])).
  cbn [mbind option_bind].
  rewrite (ranks_ext P _
             (fun d => object
                (if decide (d = r)
                 then routed_messages (fun x => owner (id x)) LOOKUP_MPI_TAG keys
                 else [])
                (shards d) false
                (if decide (d = r) then pl else false)
                (if decide (d = r) then Some collect else None) []))
    by (intros d _; by destruct (decide (d = r)) as [->|]).
  (* flush() on rank r *)
  unfold flush_at. rewrite ranks_lookup by done.
  cbn [mbind option_bind has_pending_inserts object].
  rewrite ranks_lookup by done.
  cbn [mbind option_bind has_pending_lookups object].
  rewrite !decide_True by done.
  destruct (decide (keys = [])) as [->|Hne].
  { (* nothing was looked up *)
    subst pl. cbn [mbind option_bind].
    rewrite ranks_lookup by done. cbn [mbind option_bind].
    by rewrite no_answers. }
  assert (Hpl : pl = true) by (subst pl; by destruct keys).
  clearbody pl. subst pl. clear Hne.
  (* the queries reach their owners *)
  rewrite (deliver_routed (returning receivedLookupCallback) LOOKUP_MPI_TAG r id keys
             [] shards (fun _ => false)
             (fun d => if decide (d = r) then true else false)
             (fun d => if decide (d = r) then Some collect else None)
             (fun _ => [])
             (fun d => object
                (messages_for (Z.of_nat r) LOOKUP_ANSWER_MPI_TAG
                   (answers_of shards keys d))
                (shards d) false
                (if decide (d = r) then true else false)
                (if decide (d = r) then Some collect else None) [])).
  2: done.
  2: apply ignores_empty_lookup.
  2:{ intros d Hd. unfold returning. f_equal.
      apply lookup_callback_object.
      pose proof (shard_of_length id keys d). lia. }
  cbn [mbind option_bind].
  (* the answers reach rank r *)
  rewrite (deliver_answers r shards keys true) by done.
  cbn [mbind option_bind].
  (* the flag is reset *)
  rewrite (at_rank_ranks P r _ _
             (object [] (shards r) false false (Some collect)
                (concat (answers_of shards keys <$> seq 0 P)))).
  2: done.
  2:{ by rewrite !decide_True by done. }
  cbn [mbind option_bind].
  rewrite ranks_lookup by done. cbn [mbind option_bind].
  by rewrite decide_True.
Qed.

End ProtocolFacts.

Lemma bind_ext_in {A B : Type} (f g : A -> list B) (l : list A) :
  (forall x, x ∈ l -> f x = g x) -> l ≫= f = l ≫= g.
Proof.
  induction l as [|x l IH]; intros Hfg; [done|].
  cbn [mbind list_bind foldr]. cbn [mbind list_bind] in IH.
  rewrite (Hfg x) by apply list_elem_of_here.
  rewrite IH; [done|]. intros y Hy. by apply Hfg, list_elem_of_further.
Qed.

Section MultimapFacts.
Context {K T : Type} `{EqDecision K}.
Context `{!TriviallyCopyable K} `{!TriviallyCopyable (K * T)}.
Variables (P : nat) (mpi_comm : Z) (hashFunction : K -> Z).
Hypothesis P_ranks : 0 < Z.of_nat P <= CInt.INT_MAX.

Local Abbreviation state := (map_state K T (list (K * T)) (list (K * T))).
Local Abbreviation multimap_object :=
  (object (T := T) (C := list (K * T)) P mpi_comm hashFunction
     (Comm.receiveCallbacks
        (commLayer (Multimap.constructor (T := T) (U := list (K * T))
                      mpi_comm (Z.of_nat P) hashFunction [])))).
Local Abbreviation key_owner := (owner P hashFunction).
Local Abbreviation key_shard := (shard_of P hashFunction).

Lemma constructor_object :
  Multimap.constructor mpi_comm (Z.of_nat P) hashFunction []
  = multimap_object [] [] false false None [].
Proof. reflexivity. Qed.

Lemma populate_object (batch : list (K * T)) queue m pi pl cb answers :
  Multimap.populate batch (multimap_object queue m pi pl cb answers)
  = Normal (multimap_object
              (queue ++ routed_messages (fun p => key_owner p.1) INSERT_MPI_TAG batch)
              m pi pl cb answers).
Proof.
  unfold Multimap.populate. revert queue.
  induction batch as [|p batch IH]; intros queue; cbn [for_each].
  - by rewrite app_nil_r.
  - rewrite getTargetRank_object by done. cbn [and_then].
    rewrite sendPair_enqueue.
    change (enqueue ?msgs (multimap_object queue m pi pl cb answers))
      with (multimap_object (queue ++ msgs) m pi pl cb answers).
    rewrite IH. unfold routed_messages, messages_for.
    by rewrite fmap_cons, <- app_assoc.
Qed.

Lemma insert_callback_object (ps : list (K * T)) (fromRank : Z)
  queue m pi pl cb answers :
  Z.of_nat (length ps) <= CInt.INT_MAX ->
  Multimap.receivedInsertCallback (serialize ps)
    (Z.of_nat (length (serialize ps))) fromRank
    (multimap_object queue m pi pl cb answers)
  = multimap_object queue (m ++ ps) pi pl cb answers.
Proof.
  intros Hlen.
  by rewrite receivedInsertCallback_stores, received_serialize.
Qed.

Lemma ignores_empty_insert :
  ignores_empty (K := K) (T := T) (U := list (K * T))
    (returning Multimap.receivedInsertCallback).
Proof. intros s st. reflexivity. Qed.

(** After [populate], every rank holds the pairs it owns (enumerated in
    batch order). *)
Lemma populated_ranks (r : nat) (batch : list (K * T)) :
  (r < P)%nat ->
  Z.of_nat (length batch) <= CInt.INT_MAX ->
  populated r batch (fresh_multimaps P mpi_comm hashFunction)
  = Some (ranks P (fun d =>
            multimap_object [] (key_shard fst batch d) false false None [])).
Proof.
  intros Hr Hlen. unfold populated, fresh_multimaps.
  rewrite constructor_object, replicate_ranks.
  rewrite (at_rank_ranks P r _ _
             (multimap_object
                (routed_messages (fun p => key_owner p.1) INSERT_MPI_TAG batch)
                [] false false None []))
    by (done || apply populate_object).
  cbn [mbind option_bind].
  rewrite (ranks_ext P _
             (fun d => multimap_object
                (if decide (d = r)
                 then routed_messages (fun p => key_owner p.1) INSERT_MPI_TAG batch
                 else [])
                [] false false None []))
    by (intros d _; by destruct (decide (d = r))).
  apply (deliver_routed P mpi_comm hashFunction _
           (returning Multimap.receivedInsertCallback) INSERT_MPI_TAG r fst batch
           [] (fun _ => []) (fun _ => false) (fun _ => false) (fun _ => None)
           (fun _ => [])).
  - done.
  - apply ignores_empty_insert.
  - intros d Hd. unfold returning. f_equal.
    apply insert_callback_object.
    pose proof (shard_of_length P hashFunction fst batch d). lia.
Qed.

(** A rank that owns a key holds every pair of the batch with that key. *)
Lemma answers_of_shard (batch : list (K * T)) (keys : list K) (d : nat) :
  answers_of P hashFunction (key_shard fst batch) keys d
  = key_shard id keys d ≫= (fun k => filter (fun p : K * T => p.1 = k) batch).
Proof.
  unfold answers_of. apply bind_ext_in. intros k Hk.
  apply list_elem_of_filter in Hk as [Hk _]. cbn in Hk.
  cbn [equal_range multimap_container].
  unfold multimap_equal_range, shard_of. rewrite list_filter_filter.
  apply list_filter_iff. intros p. split; [tauto|].
  intros Hp. split; [done|]. by rewrite Hp.
Qed.

Lemma all_answers (batch : list (K * T)) (keys : list K) :
  concat (answers_of P hashFunction (key_shard fst batch) keys <$> seq 0 P)
  ≡ₚ keys ≫= (fun k => filter (fun p : K * T => p.1 = k) batch).
Proof.
  rewrite (list_fmap_ext _
    ((fun l => l ≫= (fun k => filter (fun p : K * T => p.1 = k) batch))
     ∘ key_shard id keys))
    by (intros i d _; apply answers_of_shard).
  rewrite list_fmap_compose, <- bind_concat.
  apply bind_Permutation.
  unfold shard_of. rewrite (split_by_rank (fun x => key_owner (id x)) keys P).
  rewrite filter_all; [done|]. intros k. by apply owner_range.
Qed.

(** The claim as it is worded: looking up the keys of the batch, as they
    come, returns the batch. *)
Definition lookup_returns_inserted (r : nat) (batch : list (K * T)) : Prop :=
  exists answers,
    find_after_populate P mpi_comm hashFunction r batch batch.*1 = Some answers
    /\ answers ≡ₚ batch.

(** C1, amended: on [P] freshly constructed multimaps, [1 <= P <= INT_MAX],
    after rank [r] has populated a batch of at most [INT_MAX] pairs (the
    insert messages being handed to [receivedInsertCallback]), looking up
    pairwise distinct keys and flushing returns to the caller exactly the
    pairs of the batch whose key was looked up, as a multiset; it is the
    whole batch when every key of the batch is looked up. *)
Theorem find_after_populate_distinct (r : nat) (batch : list (K * T))
  (keys : list K) :
  (r < P)%nat ->
  Z.of_nat (length batch) <= CInt.INT_MAX ->
  Z.of_nat (length keys) <= CInt.INT_MAX ->
  NoDup keys ->
  exists answers,
    find_after_populate P mpi_comm hashFunction r batch keys = Some answers
    /\ answers ≡ₚ filter (fun p : K * T => p.1 ∈ keys) batch
    /\ ((forall p, p ∈ batch -> p.1 ∈ keys) -> answers ≡ₚ batch).
Proof.
  intros Hr Hbatch Hkeys Hnd.
  assert (Hsome : forall keys' : list K,
    NoDup keys' ->
    keys' ≫= (fun k => filter (fun p : K * T => p.1 = k) batch)
    ≡ₚ filter (fun p : K * T => p.1 ∈ keys') batch)
    by (intros; by apply bind_filter_key).
  exists (concat (answers_of P hashFunction (key_shard fst batch) keys <$> seq 0 P)).
  split; [|split].
  - unfold find_after_populate. rewrite populated_ranks by done.
    cbn [mbind option_bind]. apply looked_up_ranks; [done..|].
    intros d. rewrite answers_of_shard.
    rewrite Hsome by (by apply NoDup_filter).
    pose proof (length_filter (fun p : K * T => p.1 ∈ key_shard id keys d) batch).
    lia.
  - rewrite all_answers. by apply Hsome.
  - intros Hall. rewrite all_answers, Hsome by done.
    by rewrite filter_all_in.
Qed.

End MultimapFacts.

(** C1 at a concrete input: three ranks, rank 1 populates (1,10), (2,11),
    (1,12), (4,13) and looks up the keys 1, 2, 4. *)
Lemma find_after_populate_distinct_witness :
  exists answers,
    find_after_populate 3 0 byte_hash 1
      [(x01, x0a); (x02, x0b); (x01, x0c); (x04, x0d)] [x01; x02; x04]
    = Some answers
    /\ answers ≡ₚ filter (fun p : byte * byte => p.1 ∈ [x01; x02; x04])
                    [(x01, x0a); (x02, x0b); (x01, x0c); (x04, x0d)]
    /\ ((forall p, p ∈ [(x01, x0a); (x02, x0b); (x01, x0c); (x04, x0d)] ->
         p.1 ∈ [x01; x02; x04]) ->
        answers ≡ₚ [(x01, x0a); (x02, x0b); (x01, x0c); (x04, x0d)]).
Proof.
  apply (find_after_populate_distinct 3 0 byte_hash).
  - vm_compute. split; [reflexivity | discriminate].
  - lia.
  - vm_compute. discriminate.
  - vm_compute. discriminate.
  - apply (bool_decide_unpack _). vm_compute. exact I.
Defined.

(** C1 as worded fails on a batch that repeats a key: both pairs of the
    batch have key 1, key 1 is looked up twice, and each lookup returns both
    pairs. *)
Lemma lookup_repeated_batch_key_counterexample :
  ~ lookup_returns_inserted 3 0 byte_hash 1 [(x01, x0a); (x01, x0c)].
Proof.
  intros (answers & Hfind & Hperm).
  assert (Hrun :
    find_after_populate 3 0 byte_hash 1 [(x01, x0a); (x01, x0c)] [x01; x01]
    = Some [(x01, x0a); (x01, x0c); (x01, x0a); (x01, x0c)])
    by (vm_compute; reflexivity).
  change ([(x01, x0a); (x01, x0c)].*1) with [x01; x01] in Hfind.
  rewrite Hrun in Hfind. injection Hfind as <-.
  apply Permutation_length in Hperm. discriminate Hperm.
Qed.


(** ** Counting: the counting map over [P] ranks *)

Lemma of_Z_add_l (a b : Z) :
  Count.of_Z (CInt.to_count_t a + b) = Count.of_Z (a + b).
Proof.
  apply dsig_eq. cbn. unfold CInt.to_count_t.
  by rewrite Z.add_mod_idemp_l by lia.
Qed.

Lemma concat_all_nil {A B : Type} (F : A -> list B) (l : list A) :
  (forall x, x ∈ l -> F x = []) -> concat (F <$> l) = [].
Proof.
  induction l as [|x l IH]; intros HF; [done|].
  rewrite fmap_cons. cbn [concat].
  rewrite (HF x) by apply list_elem_of_here.
  apply IH. intros y Hy. by apply HF, list_elem_of_further.
Qed.

(** Only rank [j] contributes. *)
Lemma concat_single {B : Type} (F : nat -> list B) (P j : nat) :
  (j < P)%nat -> (forall d, d <> j -> F d = []) ->
  concat (F <$> seq 0 P) = F j.
Proof.
  intros Hj HF.
  replace P with (j + S (P - S j))%nat by lia.
  rewrite seq_app. cbn [seq]. rewrite fmap_app, fmap_cons, concat_app.
  cbn [concat].
  rewrite !concat_all_nil.
  - by rewrite app_nil_r.
  - intros d Hd. apply HF. apply elem_of_seq in Hd. lia.
  - intros d Hd. apply HF. apply elem_of_seq in Hd. lia.
Qed.

Section CountingFacts.
Context {K : Type} `{Countable K}.
Context `{!TriviallyCopyable K} `{!TriviallyCopyable (K * count_t)}.
Variables (P : nat) (mpi_comm : Z) (hashFunction : K -> Z).
Hypothesis P_ranks : 0 < Z.of_nat P <= CInt.INT_MAX.

Local Abbreviation state :=
  (map_state K count_t (gmap K count_t) (list (K * count_t))).
Local Abbreviation counting_object :=
  (object (T := count_t) (C := gmap K count_t) P mpi_comm hashFunction
     (Comm.receiveCallbacks
        (commLayer (CountingMap.constructor (U := list (K * count_t))
                      mpi_comm (Z.of_nat P) hashFunction [])))).
Local Abbreviation key_owner := (owner P hashFunction).
Local Abbreviation key_shard := (shard_of P hashFunction).

(** The number of times [key] occurs in [keys]. *)
Definition occurrences (key : K) (keys : list K) : nat :=
  length (filter (fun x => x = key) keys).

(** The container after the keys [keys] have been counted into [m]. *)
Definition counted_into (m : gmap K count_t) (keys : list K) : gmap K count_t :=
  fold_left (fun m k => counting_increment k m) keys m.

(** The count stored for [key] after [keys] have been counted into [m], one
    unit each, in [uint32_t]. *)
Lemma increments_lookup (keys : list K) (m : gmap K count_t) (key : K) :
  counted_into m keys !! key
  = match occurrences key keys with
    | O => m !! key
    | S _ =>
        Some (Count.of_Z
                (Count.value (default (Count.of_Z 0) (m !! key))
                 + Z.of_nat (occurrences key keys)))
    end.
Proof.
  unfold occurrences, counted_into. revert m.
  induction keys as [|x keys IH]; intros m; [done|].
  cbn [fold_left]. rewrite IH, filter_cons.
  destruct (decide (x = key)) as [->|Hne].
  - unfold counting_increment at 1 2. rewrite !lookup_insert_eq.
    cbn [length default from_option id].
    destruct (length (filter (fun x => x = key) keys)) as [|n]; [done|].
    f_equal. rewrite Count.value_of_Z, of_Z_add_l. f_equal. lia.
  - unfold counting_increment at 1 2. by rewrite !lookup_insert_ne.
Qed.

Lemma occurrences_shard (keys : list K) (key : K) :
  occurrences key (key_shard id keys (Z.to_nat (key_owner key)))
  = occurrences key keys.
Proof.
  unfold occurrences, shard_of. rewrite list_filter_filter. f_equal.
  apply list_filter_iff. intros x. split; [tauto|].
  intros ->. split; [done|]. cbn.
  pose proof (owner_range P hashFunction P_ranks key). lia.
Qed.

Lemma occurrences_le (keys : list K) (key : K) :
  (occurrences key keys <= length keys)%nat.
Proof. apply length_filter. Qed.

Lemma insert_counting_object (keys : list K) queue m pi pl cb answers :
  for_each CountingMap.insert keys (counting_object queue m pi pl cb answers)
  = Normal (counting_object
              (queue ++ routed_messages key_owner INSERT_MPI_TAG keys)
              m (if keys is [] then pi else true) pl cb answers).
Proof.
  revert queue pi.
  induction keys as [|key keys IH]; intros queue pi; cbn [for_each].
  - by rewrite app_nil_r.
  - unfold CountingMap.insert at 1.
    rewrite getTargetRank_object by done. cbn [and_then].
    rewrite sendKey_enqueue.
    change (set_has_pending_inserts true
              (enqueue ?msgs (counting_object queue m pi pl cb answers)))
      with (counting_object (queue ++ msgs) m true pl cb answers).
    rewrite IH. unfold routed_messages, messages_for.
    rewrite fmap_cons, <- app_assoc. by destruct keys.
Qed.

Lemma count_loop (keys : list K) (st : state) :
  fold_left
    (fun st key => set_local_map (counting_increment key (local_map st)) st)
    keys st
  = set_local_map (counted_into (local_map st) keys) st.
Proof.
  unfold counted_into.
  revert st. induction keys as [|key keys IH]; intros st; cbn [fold_left].
  - by destruct st.
  - by rewrite IH.
Qed.

Lemma count_callback_object (keys : list K) (fromRank : Z)
  queue m pi pl cb answers :
  Z.of_nat (length keys) <= CInt.INT_MAX ->
  CountingMap.receivedCountCallback (serialize keys)
    (Z.of_nat (length (serialize keys))) fromRank
    (counting_object queue m pi pl cb answers)
  = counting_object queue (counted_into m keys) pi pl cb answers.
Proof.
  intros Hlen. unfold CountingMap.receivedCountCallback.
  by rewrite received_serialize, count_loop.
Qed.

Lemma ignores_empty_count :
  ignores_empty (K := K) (U := list (K * count_t))
    (returning CountingMap.receivedCountCallback).
Proof. intros s st. reflexivity. Qed.

(** After the inserts and the flush, every rank has counted the keys it
    owns. *)
Lemma counted_ranks (r : nat) (keys : list K) :
  (r < P)%nat ->
  Z.of_nat (length keys) <= CInt.INT_MAX ->
  counted r keys (fresh_counting_maps P mpi_comm hashFunction)
  = Some (ranks P (fun d =>
            counting_object [] (counted_into ∅ (key_shard id keys d))
              false false None [])).
Proof.
  intros Hr Hlen. unfold counted, fresh_counting_maps.
  change (CountingMap.constructor mpi_comm (Z.of_nat P) hashFunction [])
    with (counting_object [] ∅ false false None []).
  rewrite replicate_ranks.
  set (pi := if keys is [] then false else true).
  rewrite (at_rank_ranks P r _ _
             (counting_object (routed_messages key_owner INSERT_MPI_TAG keys)
                ∅ pi false None []))
    by (done || apply (insert_counting_object keys [] ∅ false false None [])).
  cbn [mbind option_bind].
  rewrite (ranks_ext P _
             (fun d => counting_object
                (if decide (d = r)
                 then routed_messages (fun x => key_owner (id x)) INSERT_MPI_TAG keys
                 else [])
                ∅ (if decide (d = r) then pi else false) false None []))
    by (intros d _; by destruct (decide (d = r))).
  (* flush() on rank r *)
  unfold flush_at. rewrite ranks_lookup by done.
  cbn [mbind option_bind has_pending_inserts object].
  rewrite decide_True by done.
  destruct (decide (keys = [])) as [->|Hne].
  { (* nothing was inserted *)
    subst pi. cbn [mbind option_bind].
    rewrite ranks_lookup by done.
    cbn [mbind option_bind has_pending_lookups object].
    f_equal. apply ranks_ext. intros d _. by destruct (decide (d = r)). }
  assert (Hpi : pi = true) by (subst pi; by destruct keys).
  clearbody pi. subst pi. clear Hne.
  rewrite (deliver_routed P mpi_comm hashFunction _
             (returning CountingMap.receivedCountCallback) INSERT_MPI_TAG r id keys
             [] (fun _ => ∅)
             (fun d => if decide (d = r) then true else false)
             (fun _ => false) (fun _ => None) (fun _ => [])
             (fun d => counting_object []
                (counted_into ∅ (key_shard id keys d))
                (if decide (d = r) then true else false) false None [])).
  2: done.
  2: apply ignores_empty_count.
  2:{ intros d Hd. unfold returning. f_equal.
      apply count_callback_object.
      pose proof (shard_of_length P hashFunction id keys d). lia. }
  cbn [mbind option_bind].
  rewrite (at_rank_ranks P r _ _
             (counting_object [] (counted_into ∅ (key_shard id keys r))
                false false None [])).
  2: done.
  2:{ by rewrite decide_True by done. }
  cbn [mbind option_bind].
  rewrite ranks_lookup by done.
  rewrite decide_True by done.
  cbn [mbind option_bind has_pending_lookups object].
  f_equal. apply ranks_ext. intros d _.
  by destruct (decide (d = r)) as [->|].
Qed.

(** The count of [key] on its owner, once [keys] are counted. *)
Lemma owner_lookup (keys : list K) (key : K) :
  counted_into ∅ (key_shard id keys (Z.to_nat (key_owner key))) !! key
  = match occurrences key keys with
    | O => None
    | S _ => Some (Count.of_Z (Z.of_nat (occurrences key keys)))
    end.
Proof.
  rewrite increments_lookup, occurrences_shard, lookup_empty.
  by destruct (occurrences key keys).
Qed.

(** C2: on [P] freshly constructed counting maps, [1 <= P <= INT_MAX], after
    rank [r] has inserted the keys of [keys] (at most [INT_MAX] of them, any
    keys in any order) and flushed, the count stored for a key on the rank
    that owns it is the number of times the key was inserted; a key that was
    never inserted has no entry. *)
Theorem counted_exactly (r : nat) (keys : list K) (key : K) :
  (r < P)%nat ->
  Z.of_nat (length keys) <= CInt.INT_MAX ->
  exists sys,
    counted r keys (fresh_counting_maps P mpi_comm hashFunction) = Some sys
    /\ stored_count sys key
       = match occurrences key keys with
         | O => None
         | S _ => Some (Z.of_nat (occurrences key keys))
         end.
Proof.
  intros Hr Hlen. eexists. split; [by apply counted_ranks|].
  pose proof (owner_range P hashFunction P_ranks key) as Hown.
  unfold stored_count.
  rewrite ranks_lookup by lia. cbn [mbind option_bind].
  rewrite getTargetRank_object by done. cbn [mbind option_bind].
  rewrite ranks_lookup by lia. cbn [mbind option_bind local_map object].
  rewrite owner_lookup.
  destruct (occurrences key keys) as [|n] eqn:Hn; [done|].
  cbn [fmap option_fmap option_map]. rewrite Count.value_of_Z. f_equal.
  apply to_count_t_small.
  pose proof (occurrences_le keys key). unfold CInt.INT_MAX in *. lia.
Qed.

End CountingFacts.

(** C2 at a concrete input: three ranks, rank 1 inserts 1, 2, 1, 1; the
    count of key 1 is 3. *)
Lemma counted_exactly_witness :
  exists sys,
    counted 1 [x01; x02; x01; x01] (fresh_counting_maps 3 0 byte_hash) = Some sys
    /\ stored_count sys x01 = Some 3.
Proof.
  refine (counted_exactly 3 0 byte_hash _ 1 [x01; x02; x01; x01] x01 _ _).
  - vm_compute. split; [reflexivity | discriminate].
  - lia.
  - vm_compute. discriminate.
Defined.

(** ** The loops over the local container *)

(** [->] applied to what [equal_range] returns has no type; [.] has. *)
Lemma arrow_on_range (e : Cpp.expr) (m : Cpp.member) :
  Cpp.type_of e = Some Cpp.iterator_range ->
  Cpp.type_of (Cpp.arrow e m) = None
  /\ Cpp.type_of (Cpp.dot e m) = Some Cpp.local_iterator.
Proof. intros He. cbn. rewrite He. by destruct m. Qed.

(** [getLocalCount] is applicable exactly to a pair of the container. *)
Lemma getLocalCount_applicable (e : Cpp.expr) :
  Cpp.type_of (Cpp.getLocalCount_call e) = Some Cpp.size_type
  <-> Cpp.type_of e = Some Cpp.value_type.
Proof.
  cbn. destruct (Cpp.type_of e) as [[]|]; cbn; split; congruence.
Qed.

Lemma equal_range_of_key :
  Cpp.type_of (Cpp.equal_range_call (Cpp.arrow Cpp.iter Cpp.first))
  = Some Cpp.iterator_range.
Proof. reflexivity. Qed.

(** C10: [countHistrogram] cannot be instantiated: both its loops advance
    with [iter = this->local_map.equal_range(iter->first)->second], and
    [->] is applied there to a [std::pair] of iterators, which is no pointer
    and has no [operator->].  That advance is the only ill-formed statement
    of the two loops (the count [getLocalCount(local_map, *iter)] is
    well-formed), and written with [.second] it is the iterator the loop
    needs: the slip is [->] for [.]. *)
Theorem countHistrogram_ill_formed :
  Cpp.instantiable Cpp.countHistrogram_body = false
  /\ (forall s, s ∈ Cpp.countHistrogram_body ->
        Cpp.well_formed s = false
        <-> s = Cpp.assign_iter
                  (Cpp.arrow (Cpp.equal_range_call (Cpp.arrow Cpp.iter Cpp.first))
                     Cpp.second))
  /\ Cpp.well_formed
       (Cpp.assign_iter
          (Cpp.dot (Cpp.equal_range_call (Cpp.arrow Cpp.iter Cpp.first))
             Cpp.second))
     = true.
Proof.
  pose proof (arrow_on_range _ Cpp.second equal_range_of_key) as [Harrow Hdot].
  assert (Hadvance :
    Cpp.well_formed
      (Cpp.assign_iter
         (Cpp.arrow (Cpp.equal_range_call (Cpp.arrow Cpp.iter Cpp.first))
            Cpp.second))
    = false).
  { unfold Cpp.well_formed. rewrite Harrow. by apply bool_decide_eq_false. }
  assert (Hcount :
    Cpp.well_formed
      (Cpp.declare_size_t (Cpp.getLocalCount_call (Cpp.deref Cpp.iter)))
    = true).
  { unfold Cpp.well_formed. apply bool_decide_eq_true.
    by apply getLocalCount_applicable. }
  split; [|split].
  - unfold Cpp.instantiable, Cpp.countHistrogram_body. cbn [forallb].
    by rewrite Hadvance.
  - intros s Hs. unfold Cpp.countHistrogram_body in Hs.
    repeat (apply elem_of_cons in Hs as [->|Hs]).
    + done.
    + rewrite Hcount. split; discriminate.
    + done.
    + rewrite Hcount. split; discriminate.
    + by apply elem_of_nil in Hs.
  - unfold Cpp.well_formed. rewrite Hdot. by apply bool_decide_eq_true.
Qed.

(** * Part III: further properties of the header *)

(** ** Buffers that are not a whole number of objects, or too many *)

Section FramingEdges.
Context {A : Type} `{!TriviallyCopyable A}.

(** X1: [count / sizeof] rounds down: a buffer that holds the images of [xs]
    (at most [INT_MAX] objects) followed by fewer than [sizeof] more bytes
    reads back as [xs]; the trailing bytes are ignored. *)
Theorem received_ignores_partial_tail (xs : list A) (rest : list byte) :
  Z.of_nat (length xs) <= CInt.INT_MAX ->
  (length rest < sizeof A)%nat ->
  received_elements (serialize xs ++ rest)
    (Z.of_nat (length (serialize xs ++ rest)))
  = xs.
Proof.
  intros Hlen Hrest. unfold received_elements, element_count.
  rewrite length_app, serialize_length.
  replace (Z.of_nat (length xs * sizeof A + length rest))
    with (Z.of_nat (length rest) + Z.of_nat (length xs) * Z.of_nat (sizeof A))
    by lia.
  rewrite Z.div_add by lia.
  rewrite Z.div_small by lia. rewrite Z.add_0_l.
  rewrite to_int_small by (unfold CInt.INT_MAX in *; lia).
  rewrite Nat2Z.id. apply elements_of_serialize.
Qed.

(** X2: [element_count] is an [int]: when [count / sizeof] is between [2^31]
    and [2^32 - 1] it is negative after the narrowing, the loop body never
    runs, and nothing is read from the buffer. *)
Theorem received_nothing_beyond_int (msg : list byte) (count : Z) :
  2 ^ 31 <= count / Z.of_nat (sizeof A) < 2 ^ 32 ->
  element_count (A := A) count < 0
  /\ received_elements (A := A) msg count = [].
Proof.
  intros Hcount.
  assert (Hneg : element_count (A := A) count < 0).
  { unfold element_count, CInt.to_int.
    replace (count / Z.of_nat (sizeof A) + 2 ^ 31)
      with ((count / Z.of_nat (sizeof A) - 2 ^ 31) + 1 * 2 ^ 32) by lia.
    rewrite Z.mod_add by lia. rewrite Z.mod_small by lia. lia. }
  split; [done|]. unfold received_elements.
  by replace (Z.to_nat (element_count (A := A) count)) with 0%nat by lia.
Qed.

End FramingEdges.

(** X1 at a concrete input: two byte pairs and one stray byte. *)
Lemma received_ignores_partial_tail_witness :
  received_elements (A := byte * byte) [x01; x0a; x02; x0b; x03] 5
  = [(x01, x0a); (x02, x0b)].
Proof.
  refine (received_ignores_partial_tail (A := byte * byte)
            [(x01, x0a); (x02, x0b)] [x03] _ _).
  - vm_compute. discriminate.
  - vm_compute. lia.
Defined.

(** X2 at a concrete input: a count of [2^32] bytes of byte pairs. *)
Lemma received_nothing_beyond_int_witness :
  element_count (A := byte * byte) (2 ^ 32) < 0
  /\ received_elements (A := byte * byte) [x01; x0a] (2 ^ 32) = [].
Proof.
  apply (received_nothing_beyond_int (A := byte * byte) [x01; x0a] (2 ^ 32)).
  vm_compute. split; [discriminate | reflexivity].
Defined.

(** ** What the lookup callbacks leave alone, and when an answer throws *)

Section CallbackEdges.
Context {K T C U : Type} `{EqDecision K}.
Context `{!TriviallyCopyable K} `{!TriviallyCopyable (K * T)}.
Context `{!LocalContainer K T C} `{!LawfulContainer K T C}.

Local Abbreviation state := (map_state K T C U).

(** X3: [receivedLookupCallback] only reads the local container: container,
    flags, callback and caller's state are as before; the send queue grows by
    answer messages, all for the requesting rank under
    [LOOKUP_ANSWER_MPI_TAG], and every answer is a stored pair whose key is
    one of the received keys. *)
Theorem receivedLookupCallback_read_only (msg : list byte) (count fromRank : Z)
  (st : state) :
  let st' := receivedLookupCallback msg count fromRank st in
  local_map st' = local_map st
  /\ has_pending_inserts st' = has_pending_inserts st
  /\ has_pending_lookups st' = has_pending_lookups st
  /\ lookupAnswerCallbackFunc st' = lookupAnswerCallbackFunc st
  /\ caller_state st' = caller_state st
  /\ exists answers : list (K * T),
       Comm.sendQueue (commLayer st')
       = Comm.sendQueue (commLayer st)
         ++ messages_for fromRank LOOKUP_ANSWER_MPI_TAG answers
       /\ forall p, p ∈ answers ->
            p ∈ lc_elements (local_map st)
            /\ p.1 ∈ received_elements (A := K) msg count.
Proof.
  intros st'. subst st'. rewrite receivedLookupCallback_enqueue.
  repeat (split; [reflexivity|]).
  eexists. split; [reflexivity|].
  intros p (key & Hp & Hkey)%list_elem_of_bind.
  rewrite equal_range_elements in Hp.
  apply list_elem_of_filter in Hp as [Hpk Hp]. by subst key.
Qed.

(** X4: [receivedLookupAnswerCallback] hands every received pair, in order,
    to the caller's callback; with no callback set it throws
    [std::bad_function_call] at the first pair, leaving the object as it
    was, and returns normally only on a buffer with no whole pair. *)
Theorem receivedLookupAnswerCallback_outcome (msg : list byte)
  (count fromRank : Z) (st : state) :
  match lookupAnswerCallbackFunc st with
  | Some f =>
      receivedLookupAnswerCallback msg count fromRank st
      = Normal (set_caller_state
                  (fold_left (fun u p => f p u)
                     (received_elements (A := K * T) msg count) (caller_state st))
                  st)
  | None =>
      receivedLookupAnswerCallback msg count fromRank st
      = match received_elements (A := K * T) msg count with
        | [] => Normal st
        | _ :: _ => Thrown bad_function_call st
        end
  end.
Proof.
  unfold receivedLookupAnswerCallback.
  destruct (lookupAnswerCallbackFunc st) as [f|] eqn:Hf.
  - by apply answer_loop.
  - destruct (received_elements msg count) as [|e es]; [done|].
    cbn [for_each]. by rewrite Hf.
Qed.

End CallbackEdges.

(** X3 at a concrete input: keys 1 and 2 queried by rank 0 on a shard
    holding (1,10), (3,11), (1,12). *)
Lemma receivedLookupCallback_read_only_witness :
  local_map (receivedLookupCallback [x01; x02] 2 0 shard3) = local_map shard3.
Proof.
  apply (receivedLookupCallback_read_only [x01; x02] 2 0 shard3).
Defined.

(** X6 at a concrete input: the pair (2,13) arrives at a shard holding
    (1,10), (3,11), (1,12). *)
Lemma receivedInsertCallback_appends_witness :
  local_map (Multimap.receivedInsertCallback [x02; x0d] 2 0 shard3)
  ≡ₚ [(x01, x0a); (x03, x0b); (x01, x0c)] ++ [(x02, x0d)].
Proof.
  refine (proj1 (receivedInsertCallback_appends [(x02, x0d)] 0 shard3 _)).
  vm_compute. discriminate.
Defined.

(** ** The rank of a key: when it is defined *)

Section RoutingEdges.
Context {K T C U : Type}.

Local Abbreviation state := (map_state K T C U).

(** X5: [getTargetRank] divides by the communicator size as an [int]
    converted to [size_t]: the remainder is undefined exactly when the size
    is a multiple of 2^32 (0 in particular); for a size from 1 to [INT_MAX]
    it is defined and is a rank of the communicator. *)
Theorem getTargetRank_defined (st : state) (key : K) :
  (getTargetRank st key = None
   <-> Comm.getCommSize (commLayer st) mod 2 ^ 32 = 0)
  /\ (0 < Comm.getCommSize (commLayer st) <= CInt.INT_MAX ->
      exists r, getTargetRank st key = Some r
                /\ 0 <= r < Comm.getCommSize (commLayer st)).
Proof.
  split.
  - unfold getTargetRank.
    set (P := Comm.getCommSize (commLayer st)).
    unfold CInt.to_size_t at 1, CInt.to_int at 1.
    destruct (Z.eqb_spec (((P + 2 ^ 31) mod 2 ^ 32 - 2 ^ 31) mod 2 ^ 64) 0)
      as [Hz|Hz].
    + split; [intros _ | done].
      revert Hz.
      change (2 ^ 31) with 2147483648. change (2 ^ 32) with 4294967296.
      change (2 ^ 64) with 18446744073709551616.
      Z.div_mod_to_equations. lia.
    + split; [discriminate|]. intros HP. exfalso. apply Hz. revert HP.
      change (2 ^ 31) with 2147483648. change (2 ^ 32) with 4294967296.
      change (2 ^ 64) with 18446744073709551616.
      Z.div_mod_to_equations. lia.
  - intros HP. eexists. split; [by apply getTargetRank_value|].
    apply Z.mod_pos_bound. lia.
Qed.

End RoutingEdges.

(** ** The counting callback *)

Section CountingEdges.
Context {K U : Type} `{Countable K}.
Context `{!TriviallyCopyable K}.

Local Abbreviation state := (map_state K count_t (gmap K count_t) U).

Lemma count_loop_into (keys : list K) (st : state) :
  fold_left
    (fun st key => set_local_map (counting_increment key (local_map st)) st)
    keys st
  = set_local_map (counted_into (local_map st) keys) st.
Proof.
  unfold counted_into.
  revert st. induction keys as [|key keys IH]; intros st; cbn [fold_left].
  - by destruct st.
  - by rewrite IH.
Qed.

(** X7: [receivedCountCallback] adds to the count of every key the number
    of times the key was received, in [uint32_t] (so modulo 2^32), starting
    from 0 for a key that had no entry; a key that was not received keeps
    its entry, or its absence; nothing else of the object changes. *)
Theorem receivedCountCallback_counts (keys : list K) (fromRank : Z)
  (st : state) (key : K) :
  Z.of_nat (length keys) <= CInt.INT_MAX ->
  let st' :=
    CountingMap.receivedCountCallback (serialize keys)
      (Z.of_nat (length (serialize keys))) fromRank st in
  Count.value <$> local_map st' !! key
  = match occurrences key keys with
    | O => Count.value <$> local_map st !! key
    | S _ =>
        Some ((default 0 (Count.value <$> local_map st !! key)
               + Z.of_nat (occurrences key keys)) mod 2 ^ 32)
    end
  /\ st' = set_local_map (local_map st') st.
Proof.
  intros Hlen st'. subst st'. unfold CountingMap.receivedCountCallback.
  rewrite received_serialize, count_loop_into by done.
  cbn [local_map set_local_map]. split; [|done].
  rewrite (increments_lookup 0).
  destruct (occurrences key keys) as [|n]; [done|].
  cbn [fmap option_fmap option_map]. rewrite Count.value_of_Z.
  unfold CInt.to_count_t. do 2 f_equal.
  by destruct (local_map st !! key).
Qed.

End CountingEdges.

(** X7 at a concrete input: key 3 arrives twice at a container that counts
    it four times. *)
Lemma receivedCountCallback_counts_witness :
  Count.value
    <$> local_map
          (CountingMap.receivedCountCallback [x03; x01; x03] 3 0
             (set_local_map counts_b
                (CountingMap.constructor (U := unit) 0 3 byte_hash ()))) !! x03
  = Some 6.
Proof.
  refine (proj1 (receivedCountCallback_counts [x03; x01; x03] 0
                   (set_local_map counts_b
                      (CountingMap.constructor (U := unit) 0 3 byte_hash ()))
                   x03 _)).
  vm_compute. discriminate.
Defined.

(** ** [insert] and [populate] on one object *)

Section InsertEdges.
Context {K T U : Type} `{EqDecision K}.
Context `{!TriviallyCopyable K} `{!TriviallyCopyable (K * T)}.

Local Abbreviation state := (map_state K T (list (K * T)) U).

(** The insert messages of a batch: one per pair, in batch order, each for
    the rank of its key. *)
Definition insert_messages (st : state) (batch : list (K * T))
  : list Comm.Message :=
  routed_messages
    (fun p : K * T =>
       CInt.to_size_t (hashFunct st p.1) mod Comm.getCommSize (commLayer st))
    INSERT_MPI_TAG batch.

Lemma populate_enqueue (batch : list (K * T)) (st : state) :
  0 < Comm.getCommSize (commLayer st) <= CInt.INT_MAX ->
  Multimap.populate batch st = Normal (enqueue (insert_messages st batch) st).
Proof.
  unfold Multimap.populate. revert st.
  induction batch as [|p batch IH]; intros st HP; cbn [for_each].
  - by rewrite enqueue_nil.
  - rewrite getTargetRank_value by done. cbn [and_then].
    rewrite sendPair_enqueue, IH by done.
    by rewrite <- enqueue_app.
Qed.

Lemma inserts_enqueue (batch : list (K * T)) (st : state) :
  0 < Comm.getCommSize (commLayer st) <= CInt.INT_MAX ->
  for_each Multimap.insert batch st
  = Normal (set_has_pending_inserts
              (if batch is [] then has_pending_inserts st else true)
              (enqueue (insert_messages st batch) st)).
Proof.
  revert st.
  induction batch as [|p batch IH]; intros st HP; cbn [for_each].
  - rewrite enqueue_nil. by destruct st.
  - unfold Multimap.insert at 1.
    rewrite getTargetRank_value by done. cbn [and_then].
    rewrite sendPair_enqueue, IH by done.
    f_equal. unfold enqueue, set_has_pending_inserts, set_commLayer. cbn.
    rewrite <- app_assoc. by destruct batch.
Qed.

(** X8: on an object of a communicator of 1 to [INT_MAX] ranks, [populate]
    queues one insert message per pair, in batch order, each for the rank of
    its key, and changes nothing else; [insert] called pair by pair queues
    the same messages and differs only in marking inserts as pending.  The
    two-argument [insert] is [insert] of the pair. *)
Theorem populate_as_inserts (batch : list (K * T)) (st : state) :
  0 < Comm.getCommSize (commLayer st) <= CInt.INT_MAX ->
  exists st1 st2,
    Multimap.populate batch st = Normal st1
    /\ for_each Multimap.insert batch st = Normal st2
    /\ st1 = enqueue (insert_messages st batch) st
    /\ st2 = set_has_pending_inserts
               (if batch is [] then has_pending_inserts st else true) st1
    /\ (forall key value,
          Multimap.insert_kv key value st = Multimap.insert (key, value) st).
Proof.
  intros HP. eexists _, _.
  split; [by apply populate_enqueue|].
  split; [by apply inserts_enqueue|]. done.
Qed.

End InsertEdges.

(** X8 at a concrete input: the pairs (1,10) and (5,11) on one of three
    ranks. *)
Lemma populate_as_inserts_witness :
  exists st1 st2,
    Multimap.populate [(x01, x0a); (x05, x0b)] multimap3 = Normal st1
    /\ for_each Multimap.insert [(x01, x0a); (x05, x0b)] multimap3 = Normal st2
    /\ st1 = enqueue (insert_messages multimap3 [(x01, x0a); (x05, x0b)]) multimap3
    /\ st2 = set_has_pending_inserts true st1
    /\ (forall key value,
          Multimap.insert_kv key value multimap3
          = Multimap.insert (key, value) multimap3).
Proof.
  apply (populate_as_inserts [(x01, x0a); (x05, x0b)] multimap3).
  vm_compute. split; [reflexivity | discriminate].
Defined.

(** ** The multimap over [P] ranks: several batches, any looking-up rank *)

Lemma bind_length_le {A B : Type} (f : A -> list B) (l : list A) (n : nat) :
  (forall x, (length (f x) <= n)%nat) ->
  (length (l ≫= f) <= length l * n)%nat.
Proof.
  intros Hf. induction l as [|x l IH]; [done|].
  cbn [mbind list_bind foldr length]. cbn [mbind list_bind] in IH.
  rewrite length_app. specialize (Hf x). lia.
Qed.

Lemma filter_none_in {B : Type} (P : B -> Prop) `{forall x, Decision (P x)}
  (l : list B) :
  (forall x, x ∈ l -> ~ P x) -> filter P l = [].
Proof.
  induction l as [|x l IH]; intros HP; [done|].
  rewrite filter_cons, decide_False by (apply HP, list_elem_of_here).
  apply IH. intros y Hy. by apply HP, list_elem_of_further.
Qed.

Section MultimapSystem.
Context {K T : Type} `{EqDecision K}.
Context `{!TriviallyCopyable K} `{!TriviallyCopyable (K * T)}.
Variables (P : nat) (mpi_comm : Z) (hashFunction : K -> Z).
Hypothesis P_ranks : 0 < Z.of_nat P <= CInt.INT_MAX.

Local Abbreviation state := (map_state K T (list (K * T)) (list (K * T))).
Local Abbreviation multimap_object :=
  (object (T := T) (C := list (K * T)) P mpi_comm hashFunction
     (Comm.receiveCallbacks
        (commLayer (Multimap.constructor (T := T) (U := list (K * T))
                      mpi_comm (Z.of_nat P) hashFunction [])))).
Local Abbreviation key_owner := (owner P hashFunction).
Local Abbreviation key_shard := (shard_of P hashFunction).

(** Ranks with nothing queued and nothing pending, holding [shards]. *)
Local Abbreviation quiet shards :=
  (ranks P (fun d => multimap_object [] (shards d) false false None [])).

Lemma fresh_quiet :
  fresh_multimaps P mpi_comm hashFunction
  = quiet (fun _ : nat => @nil (K * T)).
Proof.
  unfold fresh_multimaps. by rewrite constructor_object, replicate_ranks.
Qed.

(** [populate] adds, on every rank, the pairs the rank owns after the ones
    it holds. *)
Lemma populated_onto (r : nat) (batch : list (K * T))
  (shards : nat -> list (K * T)) :
  (r < P)%nat ->
  Z.of_nat (length batch) <= CInt.INT_MAX ->
  populated r batch (quiet shards)
  = Some (quiet (fun d => shards d ++ key_shard fst batch d)).
Proof.
  intros Hr Hlen. unfold populated.
  rewrite (at_rank_ranks P r _ _
             (multimap_object
                (routed_messages (fun p => key_owner p.1) INSERT_MPI_TAG batch)
                (shards r) false false None []))
    by (done || apply (populate_object P mpi_comm hashFunction P_ranks
                         batch [] (shards r) false false None [])).
  cbn [mbind option_bind].
  rewrite (ranks_ext P _
             (fun d => multimap_object
                (if decide (d = r)
                 then routed_messages (fun p => key_owner p.1) INSERT_MPI_TAG batch
                 else [])
                (shards d) false false None []))
    by (intros d _; by destruct (decide (d = r)) as [->|]).
  apply (deliver_routed P mpi_comm hashFunction _
           (returning Multimap.receivedInsertCallback) INSERT_MPI_TAG r fst batch
           [] shards (fun _ => false) (fun _ => false) (fun _ => None)
           (fun _ => [])).
  - done.
  - apply ignores_empty_insert.
  - intros d Hd. unfold returning. f_equal.
    apply insert_callback_object.
    pose proof (shard_of_length P hashFunction fst batch d). lia.
Qed.

(** Several ranks populate the map, one after the other. *)
Fixpoint populate_rounds (rounds : list (nat * list (K * T))) (sys : list state)
  : option (list state) :=
  match rounds with
  | [] => Some sys
  | round :: rest =>
      sys' ← populated round.1 round.2 sys;
      populate_rounds rest sys'
  end.

Lemma populate_rounds_onto (rounds : list (nat * list (K * T)))
  (shards : nat -> list (K * T)) :
  Forall (fun round : nat * list (K * T) =>
            (round.1 < P)%nat /\ Z.of_nat (length round.2) <= CInt.INT_MAX)
    rounds ->
  populate_rounds rounds (quiet shards)
  = Some (quiet (fun d => shards d ++ key_shard fst (concat rounds.*2) d)).
Proof.
  intros Hrounds. revert shards.
  induction Hrounds as [|[r batch] rounds [Hr Hlen] _ IH]; intros shards;
    cbn [populate_rounds].
  - f_equal. apply ranks_ext. intros d _. by rewrite shard_of_nil, app_nil_r.
  - cbn [fst snd] in *. rewrite populated_onto by done.
    cbn [mbind option_bind]. rewrite IH. f_equal.
    apply ranks_ext. intros d _. rewrite fmap_cons. cbn [snd concat].
    unfold shard_of. by rewrite filter_app, app_assoc.
Qed.

(** X13: after any number of [populate] calls from any ranks of a
    communicator of 1 to [INT_MAX] ranks (each batch of at most [INT_MAX]
    pairs, the insert messages being handed to [receivedInsertCallback]),
    every rank holds, as a multiset, exactly the populated pairs whose key
    it owns, with nothing left queued; so every pair is stored once, on the
    rank of its key. *)
Theorem populate_rounds_sharded (rounds : list (nat * list (K * T))) :
  Forall (fun round : nat * list (K * T) =>
            (round.1 < P)%nat /\ Z.of_nat (length round.2) <= CInt.INT_MAX)
    rounds ->
  exists sys,
    populate_rounds rounds (fresh_multimaps P mpi_comm hashFunction) = Some sys
    /\ length sys = P
    /\ (forall d st, sys !! d = Some st ->
          local_map st
          ≡ₚ filter (fun p : K * T => key_owner p.1 = Z.of_nat d)
               (concat rounds.*2)
          /\ Comm.sendQueue (commLayer st) = [])
    /\ concat (local_map <$> sys) ≡ₚ concat rounds.*2.
Proof.
  intros Hrounds. eexists. split; [|split; [|split]].
  - rewrite fresh_quiet. by apply populate_rounds_onto.
  - apply ranks_length.
  - intros d st Hd.
    destruct (decide (d < P)%nat) as [Hlt|Hge].
    + rewrite ranks_lookup in Hd by done. by injection Hd as <-.
    + by rewrite ranks_lookup_ge in Hd by lia.
  - unfold ranks. rewrite <- list_fmap_compose.
    rewrite (list_fmap_ext _
      (fun s => filter (fun p : K * T => key_owner p.1 = Z.of_nat s)
                  (concat rounds.*2)))
      by (intros i d _; reflexivity).
    rewrite (split_by_rank (fun p : K * T => key_owner p.1)).
    rewrite filter_all; [done|]. intros p. by apply owner_range.
Qed.

Lemma inserts_object (batch : list (K * T)) queue m pi pl cb answers :
  for_each Multimap.insert batch (multimap_object queue m pi pl cb answers)
  = Normal (multimap_object
              (queue ++ routed_messages (fun p => key_owner p.1) INSERT_MPI_TAG batch)
              m (if batch is [] then pi else true) pl cb answers).
Proof. by rewrite inserts_enqueue. Qed.

(** X14: on fresh multimaps, [insert] called pair by pair on rank [r] and
    then [flush()] leaves every rank as [populate] of the same batch does:
    both succeed and give the same system. *)
Theorem insert_flush_as_populate (r : nat) (batch : list (K * T)) :
  (r < P)%nat ->
  Z.of_nat (length batch) <= CInt.INT_MAX ->
  exists sys,
    populated r batch (fresh_multimaps P mpi_comm hashFunction) = Some sys
    /\ at_rank r (for_each Multimap.insert batch)
         (fresh_multimaps P mpi_comm hashFunction)
       ≫= flush_at (returning Multimap.receivedInsertCallback) r
       = Some sys.
Proof.
  intros Hr Hlen. eexists.
  split; [by apply (populated_ranks P mpi_comm hashFunction P_ranks)|].
  rewrite fresh_quiet.
  set (pi := if batch is [] then false else true).
  rewrite (at_rank_ranks P r _ _
             (multimap_object
                (routed_messages (fun p => key_owner p.1) INSERT_MPI_TAG batch)
                [] pi false None []))
    by (done || apply (inserts_object batch [] [] false false None [])).
  cbn [mbind option_bind].
  rewrite (ranks_ext P _
             (fun d => multimap_object
                (if decide (d = r)
                 then routed_messages (fun p => key_owner p.1) INSERT_MPI_TAG batch
                 else [])
                [] (if decide (d = r) then pi else false) false None []))
    by (intros d _; by destruct (decide (d = r))).
  unfold flush_at. rewrite ranks_lookup by done.
  cbn [mbind option_bind has_pending_inserts object].
  rewrite decide_True by done.
  destruct (decide (batch = [])) as [->|Hne].
  { subst pi. cbn [mbind option_bind].
    rewrite ranks_lookup by done.
    cbn [mbind option_bind has_pending_lookups object].
    f_equal. apply ranks_ext. intros d _. by destruct (decide (d = r)). }
  assert (Hpi : pi = true) by (subst pi; by destruct batch).
  clearbody pi. subst pi. clear Hne.
  rewrite (deliver_routed P mpi_comm hashFunction _
             (returning Multimap.receivedInsertCallback) INSERT_MPI_TAG r fst batch
             [] (fun _ => [])
             (fun d => if decide (d = r) then true else false)
             (fun _ => false) (fun _ => None) (fun _ => [])
             (fun d => multimap_object [] (key_shard fst batch d)
                (if decide (d = r) then true else false) false None [])).
  2: done.
  2: apply ignores_empty_insert.
  2:{ intros d Hd. unfold returning. f_equal.
      apply insert_callback_object.
      pose proof (shard_of_length P hashFunction fst batch d). lia. }
  cbn [mbind option_bind].
  rewrite (at_rank_ranks P r _ _
             (multimap_object [] (key_shard fst batch r) false false None [])).
  2: done.
  2:{ by rewrite decide_True by done. }
  cbn [mbind option_bind].
  rewrite ranks_lookup by done.
  rewrite decide_True by done.
  cbn [mbind option_bind has_pending_lookups object].
  f_equal. apply ranks_ext. intros d _.
  by destruct (decide (d = r)) as [->|].
Qed.

(** X15: what one rank has populated, any rank can look up: on fresh
    multimaps, after rank [r] has populated [batch], rank [r'] looking up
    [keys] (any keys, repeated or not) and flushing is handed, for every
    occurrence of a key in [keys], every pair of the batch with that key, as
    a multiset; keys that are not in the batch give no answer at all.  The
    sizes are bounded so that no message holds more than [INT_MAX]
    objects. *)
Theorem lookup_from_any_rank (r r' : nat) (batch : list (K * T))
  (keys : list K) :
  (r < P)%nat -> (r' < P)%nat ->
  Z.of_nat (length batch) <= CInt.INT_MAX ->
  Z.of_nat (length keys) <= CInt.INT_MAX ->
  Z.of_nat (length keys) * Z.of_nat (length batch) <= CInt.INT_MAX ->
  exists answers,
    populated r batch (fresh_multimaps P mpi_comm hashFunction)
    ≫= looked_up (returning Multimap.receivedInsertCallback) r' keys
    = Some answers
    /\ answers ≡ₚ keys ≫= (fun k => filter (fun p : K * T => p.1 = k) batch)
    /\ ((forall k, k ∈ keys -> k ∉ batch.*1) -> answers = []).
Proof.
  intros Hr Hr' Hbatch Hkeys Hsize.
  exists (concat (answers_of P hashFunction (key_shard fst batch) keys <$> seq 0 P)).
  assert (Hall :
    concat (answers_of P hashFunction (key_shard fst batch) keys <$> seq 0 P)
    ≡ₚ keys ≫= (fun k => filter (fun p : K * T => p.1 = k) batch))
    by (by apply (all_answers P hashFunction P_ranks)).
  split; [|split; [done|]].
  - rewrite (populated_ranks P mpi_comm hashFunction P_ranks) by done.
    cbn [mbind option_bind].
    apply (looked_up_ranks P mpi_comm hashFunction _ P_ranks); [done..|].
    intros d. rewrite (answers_of_shard P hashFunction P_ranks).
    pose proof (bind_length_le
                  (fun k => filter (fun p : K * T => p.1 = k) batch)
                  (key_shard id keys d) (length batch)
                  (fun k => length_filter _ batch)) as Hle.
    pose proof (shard_of_length P hashFunction id keys d) as Hshard.
    apply Nat2Z.inj_le in Hle. rewrite Nat2Z.inj_mul in Hle.
    assert (Z.of_nat (length (key_shard id keys d)) * Z.of_nat (length batch)
            <= Z.of_nat (length keys) * Z.of_nat (length batch))
      by (apply Z.mul_le_mono_nonneg_r; lia).
    lia.
  - intros Hmissing. apply Permutation_nil_r. rewrite Hall.
    rewrite (bind_ext_in _ (fun _ => [])); [by rewrite bind_nothing|].
    intros k Hk. apply filter_none_in. intros p Hp Hpk.
    apply (Hmissing k Hk). rewrite <- Hpk. apply list_elem_of_fmap. by exists p.
Qed.

End MultimapSystem.

(** X13 at a concrete input: three ranks; rank 1 populates (1,10), (2,11),
    then rank 0 populates (1,12). *)
Lemma populate_rounds_sharded_witness :
  exists sys,
    populate_rounds
      [(1%nat, [(x01, x0a); (x02, x0b)]); (0%nat, [(x01, x0c)])]
      (fresh_multimaps 3 0 byte_hash)
    = Some sys
    /\ length sys = 3%nat
    /\ (forall d st, sys !! d = Some st ->
          local_map st
          ≡ₚ filter (fun p : byte * byte => owner 3 byte_hash p.1 = Z.of_nat d)
               (concat [(1%nat, [(x01, x0a); (x02, x0b)]); (0%nat, [(x01, x0c)])].*2)
          /\ Comm.sendQueue (commLayer st) = [])
    /\ concat (local_map <$> sys)
       ≡ₚ concat [(1%nat, [(x01, x0a); (x02, x0b)]); (0%nat, [(x01, x0c)])].*2.
Proof.
  apply (populate_rounds_sharded 3 0 byte_hash).
  - vm_compute. split; [reflexivity | discriminate].
  - repeat constructor; vm_compute; discriminate.
Defined.

(** X14 at a concrete input: three ranks, rank 1 inserts (1,10), (5,11). *)
Lemma insert_flush_as_populate_witness :
  exists sys,
    populated 1 [(x01, x0a); (x05, x0b)] (fresh_multimaps 3 0 byte_hash)
    = Some sys
    /\ at_rank 1 (for_each Multimap.insert [(x01, x0a); (x05, x0b)])
         (fresh_multimaps 3 0 byte_hash)
       ≫= flush_at (returning Multimap.receivedInsertCallback) 1
       = Some sys.
Proof.
  apply (insert_flush_as_populate 3 0 byte_hash).
  - vm_compute. split; [reflexivity | discriminate].
  - lia.
  - vm_compute. discriminate.
Defined.

(** X15 at a concrete input: three ranks, rank 1 populates (1,10), (2,11),
    (1,12); rank 2 looks up the keys 1, 1, 7. *)
Lemma lookup_from_any_rank_witness :
  exists answers,
    populated 1 [(x01, x0a); (x02, x0b); (x01, x0c)]
      (fresh_multimaps 3 0 byte_hash)
    ≫= looked_up (returning Multimap.receivedInsertCallback) 2 [x01; x01; x07]
    = Some answers
    /\ answers
       ≡ₚ [x01; x01; x07]
          ≫= (fun k => filter (fun p : byte * byte => p.1 = k)
                         [(x01, x0a); (x02, x0b); (x01, x0c)])
    /\ ((forall k, k ∈ [x01; x01; x07] ->
         k ∉ [(x01, x0a); (x02, x0b); (x01, x0c)].*1) ->
        answers = []).
Proof.
  apply (lookup_from_any_rank 3 0 byte_hash).
  - vm_compute. split; [reflexivity | discriminate].
  - lia.
  - lia.
  - vm_compute. discriminate.
  - vm_compute. discriminate.
  - vm_compute. discriminate.
Defined.

(** ** The counting map over [P] ranks: lookups *)

Lemma fmap_bind_list {A B B' : Type} (g : B -> B') (f : A -> list B)
  (l : list A) :
  g <$> (l ≫= f) = l ≫= (fun x => g <$> f x).
Proof.
  induction l as [|x l IH]; [done|].
  cbn [mbind list_bind foldr]. cbn [mbind list_bind] in IH.
  by rewrite fmap_app, IH.
Qed.

Section CountingSystem.
Context {K : Type} `{Countable K}.
Context `{!TriviallyCopyable K} `{!TriviallyCopyable (K * count_t)}.
Variables (P : nat) (mpi_comm : Z) (hashFunction : K -> Z).
Hypothesis P_ranks : 0 < Z.of_nat P <= CInt.INT_MAX.

Local Abbreviation state :=
  (map_state K count_t (gmap K count_t) (list (K * count_t))).
Local Abbreviation counting_object :=
  (object (T := count_t) (C := gmap K count_t) P mpi_comm hashFunction
     (Comm.receiveCallbacks
        (commLayer (CountingMap.constructor (U := list (K * count_t))
                      mpi_comm (Z.of_nat P) hashFunction [])))).
Local Abbreviation key_owner := (owner P hashFunction).
Local Abbreviation key_shard := (shard_of P hashFunction).

(** What the owner of [q] answers once [keys] are counted. *)
Definition count_answer (keys : list K) (q : K) : list (K * count_t) :=
  match occurrences q keys with
  | O => []
  | S _ => [(q, Count.of_Z (Z.of_nat (occurrences q keys)))]
  end.

Lemma answers_of_counted (keys queries : list K) (d : nat) :
  answers_of P hashFunction
    (fun d => counted_into ∅ (key_shard id keys d)) queries d
  = key_shard id queries d ≫= count_answer keys.
Proof.
  unfold answers_of. apply bind_ext_in. intros q Hq.
  apply list_elem_of_filter in Hq as [Hq _]. cbn in Hq.
  cbn [equal_range counting_container]. unfold counting_equal_range.
  replace d with (Z.to_nat (key_owner q)) by lia.
  rewrite (owner_lookup P hashFunction P_ranks).
  unfold count_answer. by destruct (occurrences q keys).
Qed.

Lemma all_count_answers (keys queries : list K) :
  concat (answers_of P hashFunction
            (fun d => counted_into ∅ (key_shard id keys d)) queries
          <$> seq 0 P)
  ≡ₚ queries ≫= count_answer keys.
Proof.
  rewrite (list_fmap_ext _
    ((fun l => l ≫= count_answer keys) ∘ key_shard id queries))
    by (intros i d _; apply answers_of_counted).
  rewrite list_fmap_compose, <- bind_concat.
  apply bind_Permutation.
  unfold shard_of. rewrite (split_by_rank (fun x => key_owner (id x)) queries P).
  rewrite filter_all; [done|]. intros k. by apply owner_range.
Qed.

(** X16: on fresh counting maps of 1 to [INT_MAX] ranks, after rank [r] has
    inserted [keys] (at most [INT_MAX]) and flushed, looking up [queries]
    (at most [INT_MAX], repeats allowed) and flushing hands the callback,
    for every occurrence of a query that was inserted, one pair of the
    query and the number of times it was inserted; a query that was never
    inserted gives no answer. *)
Theorem count_after_insert_counts (r : nat) (keys queries : list K) :
  (r < P)%nat ->
  Z.of_nat (length keys) <= CInt.INT_MAX ->
  Z.of_nat (length queries) <= CInt.INT_MAX ->
  exists answers,
    count_after_insert P mpi_comm hashFunction r keys queries = Some answers
    /\ answers
       ≡ₚ queries ≫= (fun q => match occurrences q keys with
                               | O => []
                               | S _ => [(q, Z.of_nat (occurrences q keys))]
                               end).
Proof.
  intros Hr Hkeys Hqueries. unfold count_after_insert.
  rewrite (counted_ranks P mpi_comm hashFunction P_ranks) by done.
  cbn [mbind option_bind].
  rewrite (looked_up_ranks P mpi_comm hashFunction _ P_ranks _ r
             (fun d => counted_into ∅ (key_shard id keys d)) queries).
  2: done.
  2: done.
  2:{ intros d. rewrite answers_of_counted.
      pose proof (bind_length_le (count_answer keys) (key_shard id queries d) 1)
        as Hle.
      pose proof (shard_of_length P hashFunction id queries d).
      assert (forall q, (length (count_answer keys q) <= 1)%nat)
        by (intros q; unfold count_answer; destruct (occurrences q keys);
            cbn; lia).
      specialize (Hle ltac:(done)). lia. }
  cbn [fmap option_fmap option_map]. eexists. split; [reflexivity|].
  rewrite all_count_answers, fmap_bind_list.
  apply eq_subrelation; [apply _|].
  apply bind_ext_in. intros q _. unfold count_answer.
  pose proof (occurrences_le keys q) as Hocc.
  destruct (occurrences q keys) as [|n]; [done|].
  rewrite list_fmap_singleton. unfold prod_map, id. cbn [fst snd].
  rewrite Count.value_of_Z. do 2 f_equal.
  apply to_count_t_small. unfold CInt.INT_MAX in *. lia.
Qed.

End CountingSystem.

(** X16 at a concrete input: three ranks, rank 1 inserts 1, 2, 1, 1 and
    looks up 1, 7, 2, 1. *)
Lemma count_after_insert_counts_witness :
  exists answers,
    count_after_insert 3 0 byte_hash 1 [x01; x02; x01; x01] [x01; x07; x02; x01]
    = Some answers
    /\ answers
       ≡ₚ [x01; x07; x02; x01]
          ≫= (fun q => match occurrences q [x01; x02; x01; x01] with
                       | O => []
                       | S _ => [(q, Z.of_nat (occurrences q [x01; x02; x01; x01]))]
                       end).
Proof.
  apply (count_after_insert_counts 3 0 byte_hash).
  - vm_compute. split; [reflexivity | discriminate].
  - lia.
  - vm_compute. discriminate.
  - vm_compute. discriminate.
Defined.

(** ** [asyncLookup]: every query reaches the owner of its key *)

Section LookupEdges.
Context {K T C U : Type}.
Context `{!TriviallyCopyable K} `{!TriviallyCopyable (K * T)}.
Context `{!LocalContainer K T C}.

Local Abbreviation state := (map_state K T C U).

(** The rank [getTargetRank] gives a key on a communicator of 1 to
    [INT_MAX] ranks. *)
Definition rank_of (st : state) (key : K) : Z :=
  CInt.to_size_t (hashFunct st key) mod Comm.getCommSize (commLayer st).

Lemma lookups_enqueue (keys : list K) (st : state) :
  lookupAnswerCallbackFunc st <> None ->
  0 < Comm.getCommSize (commLayer st) <= CInt.INT_MAX ->
  for_each asyncLookup keys st
  = Normal (set_has_pending_lookups
              (if keys is [] then has_pending_lookups st else true)
              (enqueue (routed_messages (rank_of st) LOOKUP_MPI_TAG keys) st)).
Proof.
  revert st.
  induction keys as [|key keys IH]; intros st Hf HP; cbn [for_each].
  - rewrite enqueue_nil. by destruct st.
  - unfold asyncLookup at 1.
    destruct (lookupAnswerCallbackFunc st) as [f|] eqn:Hcb; [|done].
    rewrite getTargetRank_value by done. cbn [and_then].
    rewrite sendKey_enqueue, IH.
    + f_equal. unfold enqueue, set_has_pending_lookups, set_commLayer. cbn.
      rewrite <- app_assoc. by destruct keys.
    + cbn. by rewrite Hcb.
    + done.
Qed.

(** X20: with a callback set, on a communicator of 1 to [INT_MAX] ranks and
    an empty send queue, [asyncLookup] of at most [INT_MAX] keys never
    throws, leaves the local container alone and marks lookups as pending;
    the bytes queued for a rank under [LOOKUP_MPI_TAG] decode, as
    [receivedLookupCallback] reads them, to exactly the keys that rank owns,
    in the order they were looked up. *)
Theorem asyncLookup_reaches_owner (keys : list K) (st : state) (d : Z) :
  lookupAnswerCallbackFunc st <> None ->
  0 < Comm.getCommSize (commLayer st) <= CInt.INT_MAX ->
  Z.of_nat (length keys) <= CInt.INT_MAX ->
  Comm.sendQueue (commLayer st) = [] ->
  exists st',
    for_each asyncLookup keys st = Normal st'
    /\ local_map st' = local_map st
    /\ has_pending_lookups st'
       = (if keys is [] then has_pending_lookups st else true)
    /\ let bytes :=
         Comm.sent_to LOOKUP_MPI_TAG d (Comm.sendQueue (commLayer st')) in
       received_elements (A := K) bytes (Z.of_nat (length bytes))
       = filter (fun key => rank_of st key = d) keys.
Proof.
  intros Hf HP Hlen Hqueue. eexists.
  split; [by apply lookups_enqueue|].
  split; [done|]. split; [done|].
  cbn [commLayer set_has_pending_lookups enqueue set_commLayer Comm.sendQueue].
  rewrite Hqueue, app_nil_l, sent_to_routed.
  apply received_serialize.
  pose proof (length_filter (fun key => rank_of st key = d) keys). lia.
Qed.

End LookupEdges.

(** X20 at a concrete input: on one of three ranks, with a callback set,
    the keys 1, 5, 4, 2 are looked up; rank 2 is sent 5 and 2. *)
Lemma asyncLookup_reaches_owner_witness :
  exists st',
    for_each asyncLookup [x01; x05; x04; x02]
      (setLookupAnswerCallback (Some collect) multimap3)
    = Normal st'
    /\ local_map st' = local_map (setLookupAnswerCallback (Some collect) multimap3)
    /\ has_pending_lookups st' = true
    /\ let bytes :=
         Comm.sent_to LOOKUP_MPI_TAG 2 (Comm.sendQueue (commLayer st')) in
       received_elements (A := byte) bytes (Z.of_nat (length bytes))
       = filter
           (fun key =>
              rank_of (setLookupAnswerCallback (Some collect) multimap3) key = 2)
           [x01; x05; x04; x02].
Proof.
  apply (asyncLookup_reaches_owner [x01; x05; x04; x02]
           (setLookupAnswerCallback (Some collect) multimap3) 2).
  - discriminate.
  - vm_compute. split; [reflexivity | discriminate].
  - vm_compute. discriminate.
  - reflexivity.
Defined.

(** ** [distributed_counting_map::populate] *)

Section CountingPopulate.
Context {K : Type} `{Countable K}.
Context `{!TriviallyCopyable K} `{!TriviallyCopyable (K * count_t)}.
Variables (P : nat) (mpi_comm : Z) (hashFunction : K -> Z).
Hypothesis P_ranks : 0 < Z.of_nat P <= CInt.INT_MAX.

Local Abbreviation state :=
  (map_state K count_t (gmap K count_t) (list (K * count_t))).
Local Abbreviation counting_object :=
  (object (T := count_t) (C := gmap K count_t) P mpi_comm hashFunction
     (Comm.receiveCallbacks
        (commLayer (CountingMap.constructor (U := list (K * count_t))
                      mpi_comm (Z.of_nat P) hashFunction [])))).
Local Abbreviation key_owner := (owner P hashFunction).
Local Abbreviation key_shard := (shard_of P hashFunction).

(** Rank [r] populates the counting map with [keys]: the loop of sends and
    the closing [commLayer.flush(INSERT_MPI_TAG)], which hands the messages
    to [receivedCountCallback] on their destinations. *)
Definition counting_populated (r : nat) (keys : list K) (sys : list state)
  : option (list state) :=
  sys1 ← at_rank r (CountingMap.populate keys) sys;
  deliver (returning CountingMap.receivedCountCallback) INSERT_MPI_TAG sys1.

Lemma populate_counting_object (keys : list K) queue m pi pl cb answers :
  CountingMap.populate keys (counting_object queue m pi pl cb answers)
  = Normal (counting_object
              (queue ++ routed_messages key_owner INSERT_MPI_TAG keys)
              m pi pl cb answers).
Proof.
  unfold CountingMap.populate. revert queue.
  induction keys as [|key keys IH]; intros queue; cbn [for_each].
  - by rewrite app_nil_r.
  - rewrite getTargetRank_object by done. cbn [and_then].
    rewrite sendKey_enqueue.
    change (enqueue ?msgs (counting_object queue m pi pl cb answers))
      with (counting_object (queue ++ msgs) m pi pl cb answers).
    rewrite IH. unfold routed_messages, messages_for.
    by rewrite fmap_cons, <- app_assoc.
Qed.

(** X21: on fresh counting maps of 1 to [INT_MAX] ranks, [populate] of at
    most [INT_MAX] keys on rank [r] leaves every rank exactly as [insert]
    called key by key followed by [flush()] does: both succeed and give the
    same system, in which the owner of a key stores the number of times the
    key occurs in the batch. *)
Theorem counting_populate_as_inserts (r : nat) (keys : list K) (key : K) :
  (r < P)%nat ->
  Z.of_nat (length keys) <= CInt.INT_MAX ->
  exists sys,
    counting_populated r keys (fresh_counting_maps P mpi_comm hashFunction)
    = Some sys
    /\ counted r keys (fresh_counting_maps P mpi_comm hashFunction) = Some sys
    /\ stored_count sys key
       = match occurrences key keys with
         | O => None
         | S _ => Some (Z.of_nat (occurrences key keys))
         end.
Proof.
  intros Hr Hlen. eexists. split; [|split].
  2: by apply (counted_ranks P mpi_comm hashFunction P_ranks).
  - unfold counting_populated, fresh_counting_maps.
    change (CountingMap.constructor mpi_comm (Z.of_nat P) hashFunction [])
      with (counting_object [] ∅ false false None []).
    rewrite replicate_ranks.
    rewrite (at_rank_ranks P r _ _
               (counting_object (routed_messages key_owner INSERT_MPI_TAG keys)
                  ∅ false false None []))
      by (done || apply (populate_counting_object keys [] ∅ false false None [])).
    cbn [mbind option_bind].
    rewrite (ranks_ext P _
               (fun d => counting_object
                  (if decide (d = r)
                   then routed_messages (fun x => key_owner (id x)) INSERT_MPI_TAG keys
                   else [])
                  ∅ false false None []))
      by (intros d _; by destruct (decide (d = r))).
    apply (deliver_routed P mpi_comm hashFunction _
             (returning CountingMap.receivedCountCallback) INSERT_MPI_TAG r id keys
             [] (fun _ => ∅) (fun _ => false) (fun _ => false) (fun _ => None)
             (fun _ => [])).
    + done.
    + apply ignores_empty_count.
    + intros d Hd. unfold returning. f_equal.
      apply count_callback_object.
      pose proof (shard_of_length P hashFunction id keys d). lia.
  - pose proof (owner_range P hashFunction P_ranks key) as Hown.
    unfold stored_count.
    rewrite ranks_lookup by lia. cbn [mbind option_bind].
    rewrite getTargetRank_object by done. cbn [mbind option_bind].
    rewrite ranks_lookup by lia. cbn [mbind option_bind local_map object].
    rewrite (owner_lookup P hashFunction P_ranks).
    pose proof (occurrences_le keys key).
    destruct (occurrences key keys) as [|n] eqn:Hn; [done|].
    cbn [fmap option_fmap option_map]. rewrite Count.value_of_Z. f_equal.
    apply to_count_t_small. unfold CInt.INT_MAX in *. lia.
Qed.

End CountingPopulate.

(** X21 at a concrete input: three ranks, rank 1 populates 1, 2, 1, 1. *)
Lemma counting_populate_as_inserts_witness :
  exists sys,
    counting_populated 1 [x01; x02; x01; x01] (fresh_counting_maps 3 0 byte_hash)
    = Some sys
    /\ counted 1 [x01; x02; x01; x01] (fresh_counting_maps 3 0 byte_hash)
       = Some sys
    /\ stored_count sys x01 = Some 3.
Proof.
  refine (counting_populate_as_inserts 3 0 byte_hash _ 1
            [x01; x02; x01; x01] x01 _ _).
  - vm_compute. split; [reflexivity | discriminate].
  - lia.
  - vm_compute. discriminate.
Defined.

(** ** Queries for keys that are not stored *)

Section MissingKeys.
Context {K T C U : Type} `{EqDecision K}.
Context `{!TriviallyCopyable K} `{!TriviallyCopyable (K * T)}.
Context `{!LocalContainer K T C} `{!LawfulContainer K T C}.

Local Abbreviation state := (map_state K T C U).

(** X24: [receivedLookupCallback] on queries (at most [INT_MAX]) none of
    which is a key of the local container sends nothing: the object is
    exactly as before. *)
Theorem receivedLookupCallback_missing (keys : list K) (fromRank : Z)
  (st : state) :
  Z.of_nat (length keys) <= CInt.INT_MAX ->
  (forall k, k ∈ keys -> k ∉ (lc_elements (local_map st)).*1) ->
  receivedLookupCallback (serialize keys)
    (Z.of_nat (length (serialize keys))) fromRank st
  = st.
Proof.
  intros Hlen Hmissing.
  rewrite receivedLookupCallback_enqueue, received_serialize by done.
  rewrite (bind_ext_in _ (fun _ => [])).
  - rewrite bind_nothing. apply enqueue_nil.
  - intros k Hk. apply Permutation_nil_r.
    rewrite equal_range_elements. rewrite filter_none_in; [done|].
    intros p Hp Hpk. apply (Hmissing k Hk). rewrite <- Hpk.
    apply list_elem_of_fmap. by exists p.
Qed.

End MissingKeys.

(** X24 at a concrete input: the keys 2 and 7 queried on a shard holding
    keys 1 and 3. *)
Lemma receivedLookupCallback_missing_witness :
  receivedLookupCallback [x02; x07] 2 0 shard3 = shard3.
Proof.
  refine (receivedLookupCallback_missing [x02; x07] 0 shard3 _ _).
  - vm_compute. discriminate.
  - intros k Hk Hin.
    change ((lc_elements (local_map shard3)).*1) with [x01; x03; x01] in Hin.
    repeat (apply elem_of_cons in Hin as [Hin|Hin];
            [subst k;
             repeat (apply elem_of_cons in Hk as [Hk|Hk]; [discriminate|]);
             by apply elem_of_nil in Hk|]).
    by apply elem_of_nil in Hin.
Defined.

(** ** Counting from several ranks *)

Section CountingRounds.
Context {K : Type} `{Countable K}.
Context `{!TriviallyCopyable K} `{!TriviallyCopyable (K * count_t)}.
Variables (P : nat) (mpi_comm : Z) (hashFunction : K -> Z).
Hypothesis P_ranks : 0 < Z.of_nat P <= CInt.INT_MAX.

Local Abbreviation state :=
  (map_state K count_t (gmap K count_t) (list (K * count_t))).
Local Abbreviation counting_object :=
  (object (T := count_t) (C := gmap K count_t) P mpi_comm hashFunction
     (Comm.receiveCallbacks
        (commLayer (CountingMap.constructor (U := list (K * count_t))
                      mpi_comm (Z.of_nat P) hashFunction [])))).
Local Abbreviation key_owner := (owner P hashFunction).
Local Abbreviation key_shard := (shard_of P hashFunction).

(** Ranks with nothing queued and nothing pending, holding [shards]. *)
Local Abbreviation quiet shards :=
  (ranks P (fun d => counting_object [] (shards d) false false None [])).

(** Inserting and flushing adds, on every rank, the keys the rank owns to
    the counts it holds. *)
Lemma counted_onto (r : nat) (keys : list K) (shards : nat -> gmap K count_t) :
  (r < P)%nat ->
  Z.of_nat (length keys) <= CInt.INT_MAX ->
  counted r keys (quiet shards)
  = Some (quiet (fun d => counted_into (shards d) (key_shard id keys d))).
Proof.
  intros Hr Hlen. unfold counted.
  set (pi := if keys is [] then false else true).
  rewrite (at_rank_ranks P r _ _
             (counting_object (routed_messages key_owner INSERT_MPI_TAG keys)
                (shards r) pi false None []))
    by (done || apply (insert_counting_object P mpi_comm hashFunction P_ranks
                         keys [] (shards r) false false None [])).
  cbn [mbind option_bind].
  rewrite (ranks_ext P _
             (fun d => counting_object
                (if decide (d = r)
                 then routed_messages (fun x => key_owner (id x)) INSERT_MPI_TAG keys
                 else [])
                (shards d) (if decide (d = r) then pi else false) false None []))
    by (intros d _; by destruct (decide (d = r)) as [->|]).
  unfold flush_at. rewrite ranks_lookup by done.
  cbn [mbind option_bind has_pending_inserts object].
  rewrite decide_True by done.
  destruct (decide (keys = [])) as [->|Hne].
  { subst pi. cbn [mbind option_bind].
    rewrite ranks_lookup by done.
    cbn [mbind option_bind has_pending_lookups object].
    f_equal. apply ranks_ext. intros d _. by destruct (decide (d = r)). }
  assert (Hpi : pi = true) by (subst pi; by destruct keys).
  clearbody pi. subst pi. clear Hne.
  rewrite (deliver_routed P mpi_comm hashFunction _
             (returning CountingMap.receivedCountCallback) INSERT_MPI_TAG r id keys
             [] shards
             (fun d => if decide (d = r) then true else false)
             (fun _ => false) (fun _ => None) (fun _ => [])
             (fun d => counting_object []
                (counted_into (shards d) (key_shard id keys d))
                (if decide (d = r) then true else false) false None [])).
  2: done.
  2: apply ignores_empty_count.
  2:{ intros d Hd. unfold returning. f_equal.
      apply count_callback_object.
      pose proof (shard_of_length P hashFunction id keys d). lia. }
  cbn [mbind option_bind].
  rewrite (at_rank_ranks P r _ _
             (counting_object [] (counted_into (shards r) (key_shard id keys r))
                false false None [])).
  2: done.
  2:{ by rewrite decide_True by done. }
  cbn [mbind option_bind].
  rewrite ranks_lookup by done.
  rewrite decide_True by done.
  cbn [mbind option_bind has_pending_lookups object].
  f_equal. apply ranks_ext. intros d _.
  by destruct (decide (d = r)) as [->|].
Qed.

(** Several ranks insert their keys and flush, one after the other. *)
Fixpoint count_rounds (rounds : list (nat * list K)) (sys : list state)
  : option (list state) :=
  match rounds with
  | [] => Some sys
  | round :: rest =>
      sys' ← counted round.1 round.2 sys;
      count_rounds rest sys'
  end.

Lemma count_rounds_onto (rounds : list (nat * list K))
  (shards : nat -> gmap K count_t) :
  Forall (fun round : nat * list K =>
            (round.1 < P)%nat /\ Z.of_nat (length round.2) <= CInt.INT_MAX)
    rounds ->
  count_rounds rounds (quiet shards)
  = Some (quiet (fun d =>
            counted_into (shards d) (key_shard id (concat rounds.*2) d))).
Proof.
  intros Hrounds. revert shards.
  induction Hrounds as [|[r keys] rounds [Hr Hlen] _ IH]; intros shards;
    cbn [count_rounds].
  - done.
  - cbn [fst snd] in *. rewrite counted_onto by done.
    cbn [mbind option_bind]. rewrite IH. f_equal.
    apply ranks_ext. intros d _. rewrite fmap_cons. cbn [snd concat].
    unfold shard_of, counted_into. by rewrite filter_app, fold_left_app.
Qed.

(** X25: counts accumulate over senders: on fresh counting maps of 1 to
    [INT_MAX] ranks, after any ranks have, one after the other, inserted
    their keys (at most [INT_MAX] each) and flushed, the owner of a key
    stores the total number of times the key was inserted, over all
    senders, modulo 2^32; a key nobody inserted has no entry. *)
Theorem count_rounds_total (rounds : list (nat * list K)) (key : K) :
  Forall (fun round : nat * list K =>
            (round.1 < P)%nat /\ Z.of_nat (length round.2) <= CInt.INT_MAX)
    rounds ->
  exists sys,
    count_rounds rounds (fresh_counting_maps P mpi_comm hashFunction) = Some sys
    /\ stored_count sys key
       = match occurrences key (concat rounds.*2) with
         | O => None
         | S _ =>
             Some (Z.of_nat (occurrences key (concat rounds.*2)) mod 2 ^ 32)
         end.
Proof.
  intros Hrounds. eexists. split.
  - unfold fresh_counting_maps.
    change (CountingMap.constructor mpi_comm (Z.of_nat P) hashFunction [])
      with (counting_object [] ∅ false false None []).
    rewrite replicate_ranks. by apply count_rounds_onto.
  - pose proof (owner_range P hashFunction P_ranks key) as Hown.
    unfold stored_count.
    rewrite ranks_lookup by lia. cbn [mbind option_bind].
    rewrite getTargetRank_object by done. cbn [mbind option_bind].
    rewrite ranks_lookup by lia. cbn [mbind option_bind local_map object].
    rewrite (owner_lookup P hashFunction P_ranks).
    destruct (occurrences key (concat rounds.*2)) as [|n]; [done|].
    cbn [fmap option_fmap option_map]. by rewrite Count.value_of_Z.
Qed.

End CountingRounds.

(** X25 at a concrete input: three ranks; rank 1 inserts 1, 2, 1, then
    rank 0 inserts 1, 5: key 1 is counted three times. *)
Lemma count_rounds_total_witness :
  exists sys,
    count_rounds [(1%nat, [x01; x02; x01]); (0%nat, [x01; x05])]
      (fresh_counting_maps 3 0 byte_hash)
    = Some sys
    /\ stored_count sys x01 = Some 3.
Proof.
  refine (count_rounds_total 3 0 byte_hash _
            [(1%nat, [x01; x02; x01]); (0%nat, [x01; x05])] x01 _).
  - vm_compute. split; [reflexivity | discriminate].
  - repeat constructor; vm_compute; discriminate.
Defined.

(** ** [filter] as the header writes it *)

(** X27: [filter] cannot be instantiated, for two reasons that each suffice:
    line 204 applies [->second] to the [std::pair] of iterators that
    [equal_range] returns, and line 205 passes the iterator [iter] to
    [getLocalCount], whose overloads both take a pair.  Written with
    [.second] and [*iter], as [countHistrogram] passes its item, both
    statements are well-formed. *)
Theorem filter_ill_formed :
  Cpp.instantiable Cpp.filter_body = false
  /\ Forall (fun s => Cpp.well_formed s = false) Cpp.filter_body
  /\ Cpp.well_formed
       (Cpp.declare_auto
          (Cpp.dot (Cpp.equal_range_call (Cpp.arrow Cpp.iter Cpp.first))
             Cpp.second))
     = true
  /\ Cpp.well_formed
       (Cpp.declare_size_t (Cpp.getLocalCount_call (Cpp.deref Cpp.iter)))
     = true.
Proof.
  pose proof (arrow_on_range _ Cpp.second equal_range_of_key) as [Harrow Hdot].
  assert (Hend :
    Cpp.well_formed
      (Cpp.declare_auto
         (Cpp.arrow (Cpp.equal_range_call (Cpp.arrow Cpp.iter Cpp.first))
            Cpp.second))
    = false).
  { unfold Cpp.well_formed. rewrite Harrow. apply bool_decide_eq_false.
    by intros [t Ht]. }
  assert (Hcount :
    Cpp.well_formed (Cpp.declare_size_t (Cpp.getLocalCount_call Cpp.iter))
    = false).
  { unfold Cpp.well_formed. apply bool_decide_eq_false.
    rewrite getLocalCount_applicable. discriminate. }
  split; [|split; [|split]].
  - unfold Cpp.instantiable, Cpp.filter_body. cbn [forallb]. by rewrite Hend.
  - unfold Cpp.filter_body. by repeat constructor.
  - unfold Cpp.well_formed. rewrite Hdot. by apply bool_decide_eq_true.
  - unfold Cpp.well_formed. apply bool_decide_eq_true.
    by apply getLocalCount_applicable.
Qed.
